(** * audiolab: spectrum analyser and swept tone generator (main.c)

    A shallow embedding of the analysis and synthesis core of [main.c]:
    the radix-2 [fft], the per-frame analysis pass of [main] (squelch gate,
    trigger detection, peak search, adaptive timebase, peak hold), the
    key handling of the control surface, [playback_callback] and
    [freq_to_note].

    Numeric model.  In the analysis code a C [double] is embedded as a
    real number and [M_PI] as the real [PI]: that code is verified as the
    exact real-arithmetic algorithm it implements, rounding errors are out
    of scope there.  The sweep accumulator of [playback_callback] is the
    one place where the behaviour depends on rounding (882000 additions of
    [1.0 / 44100] compared with [20.0]), so the generator state is embedded
    bit for bit with binary64 floats.  Conversions to [int] and [Sint16]
    truncate toward zero, as a C cast does.

    Part I holds the embedding, Part II the lemmas and theorems. *)

From Stdlib Require Import String Ascii DecimalString Floats.
From Stdlib Require Import Reals Lra Lia ZArith NArith List Bool Arith.
From Equations Require Import Equations.
Import ListNotations.

Set Warnings "-inexact-float".

(** * Part I: the embedding *)

(** ** Constants *)

Definition SAMPLE_RATE : Z := 44100.
Definition REC_BUFFER_SIZE : nat := 4096.
Definition PLAY_BUFFER_SIZE : nat := 2048.

Arguments REC_BUFFER_SIZE : simpl never.

(** ** Arrays and counted loops

    A C array is a list read with [nth] and written with [upd]; a loop
    [for (i = lo; i < hi; ++i)] is a left fold over its indices. *)

Section Arrays.
Context {A : Type}.

Fixpoint upd (i : nat) (v : A) (l : list A) : list A :=
  match l, i with
  | [], _ => []
  | _ :: t, O => v :: t
  | h :: t, S j => h :: upd j v t
  end.

Definition for_loop {S : Type} (lo hi : nat) (body : nat -> S -> S) (s : S) : S :=
  fold_left (fun acc i => body i acc) (seq lo (hi - lo)) s.

End Arrays.

(** ** C numeric conversions and math.h on the real model *)

Local Open Scope R_scope.

Definition M_PI : R := PI.

(** [(int)d]: the fractional part is discarded (truncation toward zero). *)
Definition trunc (d : R) : Z :=
  if Rle_dec 0 d then Int_part d else (- Int_part (- d))%Z.

(** [round(d)]: nearest integer, halfway cases away from zero. *)
Definition round (d : R) : Z :=
  if Rle_dec 0 d then Int_part (d + / 2) else (- Int_part (- d + / 2))%Z.

(** [fmod(x, y)]: [x - n * y] with [n] the quotient truncated toward zero. *)
Definition fmod (x y : R) : R := x - IZR (trunc (x / y)) * y.

Definition fabs (x : R) : R := Rabs x.
Definition log10 (x : R) : R := ln x / ln 10.
Definition log2 (x : R) : R := ln x / ln 2.

Definition INT_MIN : Z := -2147483648.
Definition INT_MAX : Z := 2147483647.
Definition SINT16_MIN : Z := -32768.
Definition SINT16_MAX : Z := 32767.

(** A conversion from [double] to an integer type is defined only when the
    truncated value fits the type; [None] stands for undefined behaviour. *)
Definition cast_range (lo hi : Z) (d : R) : option Z :=
  let z := trunc d in
  if ((lo <=? z) && (z <=? hi))%Z then Some z else None.

Definition cast_int : R -> option Z := cast_range INT_MIN INT_MAX.
Definition cast_Sint16 : R -> option Z := cast_range SINT16_MIN SINT16_MAX.

(** ** Types *)

Inductive WaveformType := WAVE_SINE | WAVE_SQUARE | WAVE_SAWTOOTH | WAVE_TRIANGLE.

Record Complex := mkComplex { real : R; imag : R }.

Record PeakMarker := mkPeakMarker { x_pos : R; db : R; frequency : R }.

(** The accumulators of the generator are binary64 values. *)
Record ToneGenerator := mkToneGenerator {
  is_on : bool;
  gen_is_paused : bool;
  wave_type : WaveformType;
  sweep_time : float;
  sweep_up : bool;
  phase : float;
  current_freq : float }.

(** The fields of the global [AppState] that the core reads or writes
    (window, renderer, fonts, devices and panel rectangles are left out). *)
Record AppState := mkAppState {
  is_running : bool;
  is_paused : bool;
  trigger_lock_on : bool;
  auto_timebase_on : bool;
  rec_buffer : list Z;
  peak_hold_magnitudes : list R;
  peak_marker : PeakMarker;
  squelch_threshold : R;
  visual_gain : R;
  scope_gain : R;
  scope_display_samples : Z;
  generator : ToneGenerator }.

(** [spectrum_panel_rect = {10, 305, 1004, 285}]. *)
Definition spectrum_panel_rect_x : Z := 10.
Definition spectrum_panel_rect_w : Z := 1004.

Definition generator_init : ToneGenerator :=
  mkToneGenerator false false WAVE_SINE 0%float true 0%float 20%float.

(** The static initialiser of [AppState]; arrays start zeroed. *)
Definition AppState_init : AppState :=
  mkAppState true false true true
    (repeat 0%Z REC_BUFFER_SIZE) (repeat 0 (REC_BUFFER_SIZE / 2))
    (mkPeakMarker 0 0 0) 500.0 1.0 1.0 2048 generator_init.

Definition set_is_running (v : bool) (s : AppState) : AppState :=
  mkAppState v (is_paused s) (trigger_lock_on s) (auto_timebase_on s) (rec_buffer s)
    (peak_hold_magnitudes s) (peak_marker s) (squelch_threshold s) (visual_gain s)
    (scope_gain s) (scope_display_samples s) (generator s).

Definition set_is_paused (v : bool) (s : AppState) : AppState :=
  mkAppState (is_running s) v (trigger_lock_on s) (auto_timebase_on s) (rec_buffer s)
    (peak_hold_magnitudes s) (peak_marker s) (squelch_threshold s) (visual_gain s)
    (scope_gain s) (scope_display_samples s) (generator s).

Definition set_trigger_lock_on (v : bool) (s : AppState) : AppState :=
  mkAppState (is_running s) (is_paused s) v (auto_timebase_on s) (rec_buffer s)
    (peak_hold_magnitudes s) (peak_marker s) (squelch_threshold s) (visual_gain s)
    (scope_gain s) (scope_display_samples s) (generator s).

Definition set_auto_timebase_on (v : bool) (s : AppState) : AppState :=
  mkAppState (is_running s) (is_paused s) (trigger_lock_on s) v (rec_buffer s)
    (peak_hold_magnitudes s) (peak_marker s) (squelch_threshold s) (visual_gain s)
    (scope_gain s) (scope_display_samples s) (generator s).

Definition set_rec_buffer (v : list Z) (s : AppState) : AppState :=
  mkAppState (is_running s) (is_paused s) (trigger_lock_on s) (auto_timebase_on s) v
    (peak_hold_magnitudes s) (peak_marker s) (squelch_threshold s) (visual_gain s)
    (scope_gain s) (scope_display_samples s) (generator s).

Definition set_peak_hold_magnitudes (v : list R) (s : AppState) : AppState :=
  mkAppState (is_running s) (is_paused s) (trigger_lock_on s) (auto_timebase_on s)
    (rec_buffer s) v (peak_marker s) (squelch_threshold s) (visual_gain s)
    (scope_gain s) (scope_display_samples s) (generator s).

Definition set_peak_marker (v : PeakMarker) (s : AppState) : AppState :=
  mkAppState (is_running s) (is_paused s) (trigger_lock_on s) (auto_timebase_on s)
    (rec_buffer s) (peak_hold_magnitudes s) v (squelch_threshold s) (visual_gain s)
    (scope_gain s) (scope_display_samples s) (generator s).

Definition set_squelch_threshold (v : R) (s : AppState) : AppState :=
  mkAppState (is_running s) (is_paused s) (trigger_lock_on s) (auto_timebase_on s)
    (rec_buffer s) (peak_hold_magnitudes s) (peak_marker s) v (visual_gain s)
    (scope_gain s) (scope_display_samples s) (generator s).

Definition set_visual_gain (v : R) (s : AppState) : AppState :=
  mkAppState (is_running s) (is_paused s) (trigger_lock_on s) (auto_timebase_on s)
    (rec_buffer s) (peak_hold_magnitudes s) (peak_marker s) (squelch_threshold s) v
    (scope_gain s) (scope_display_samples s) (generator s).

Definition set_scope_gain (v : R) (s : AppState) : AppState :=
  mkAppState (is_running s) (is_paused s) (trigger_lock_on s) (auto_timebase_on s)
    (rec_buffer s) (peak_hold_magnitudes s) (peak_marker s) (squelch_threshold s)
    (visual_gain s) v (scope_display_samples s) (generator s).

Definition set_scope_display_samples (v : Z) (s : AppState) : AppState :=
  mkAppState (is_running s) (is_paused s) (trigger_lock_on s) (auto_timebase_on s)
    (rec_buffer s) (peak_hold_magnitudes s) (peak_marker s) (squelch_threshold s)
    (visual_gain s) (scope_gain s) v (generator s).

Definition set_generator (v : ToneGenerator) (s : AppState) : AppState :=
  mkAppState (is_running s) (is_paused s) (trigger_lock_on s) (auto_timebase_on s)
    (rec_buffer s) (peak_hold_magnitudes s) (peak_marker s) (squelch_threshold s)
    (visual_gain s) (scope_gain s) (scope_display_samples s) v.

(** ** fft: recursive radix-2 transform *)

Definition C0 : Complex := mkComplex 0 0.

(** [even[i] = x[2*i]] (offset 0) and [odd[i] = x[2*i+1]] (offset 1),
    for [i < n/2]. *)
Definition gather (x : list Complex) (offset half : nat) : list Complex :=
  map (fun i => nth (2 * i + offset) x C0) (seq 0 half).

(** The body of the recombination loop at index [k]. *)
Definition butterfly (n : nat) (even odd : list Complex) (k : nat)
    (x : list Complex) : list Complex :=
  let angle := -2 * M_PI * INR k / INR n in
  let ek := nth k even C0 in
  let ok := nth k odd C0 in
  let t := mkComplex (cos angle * real ok - sin angle * imag ok)
                     (cos angle * imag ok + sin angle * real ok) in
  upd (k + n / 2) (mkComplex (real ek - real t) (imag ek - imag t))
    (upd k (mkComplex (real ek + real t) (imag ek + imag t)) x).

(** [fft(x, n)] works in place; here the array is passed in and the
    transformed array returned.  [n <= 1] returns at once. *)
Equations? fft (x : list Complex) (n : nat) : list Complex by wf n lt :=
fft x n with le_lt_dec n 1 := {
  | left _ => x
  | right _ =>
      let even := fft (gather x 0 (n / 2)) (n / 2) in
      let odd := fft (gather x 1 (n / 2)) (n / 2) in
      for_loop 0 (n / 2) (butterfly n even odd) x }.
Proof. all: change (n / 2 < n)%nat; apply Nat.div_lt; lia. Qed.

(** *** The transform as the specification words it *)

Definition Cadd (a b : Complex) : Complex := mkComplex (real a + real b) (imag a + imag b).

Definition Cmul (a b : Complex) : Complex :=
  mkComplex (real a * real b - imag a * imag b) (real a * imag b + imag a * real b).

(** [cis a] is [e^{i a}]. *)
Definition cis (a : R) : Complex := mkComplex (cos a) (sin a).

Fixpoint Csum (f : nat -> Complex) (n : nat) : Complex :=
  match n with
  | O => C0
  | S m => Cadd (Csum f m) (f m)
  end.

(** [X[k] = sum over j < n of x[j] * e^{-2 pi i j k / n}]. *)
Definition dft (x : list Complex) (n k : nat) : Complex :=
  Csum (fun j => Cmul (nth j x C0) (cis (-2 * PI * INR j * INR k / INR n))) n.

Definition magnitude (c : Complex) : R := sqrt (real c * real c + imag c * imag c).

(** The unit impulse [1, 0, ..., 0] of length [n]. *)
Definition impulse (n : nat) : list Complex :=
  match n with
  | O => []
  | S m => mkComplex 1 0 :: repeat C0 m
  end.

(** The two values that the recombination loop stores for index [k]. *)
Definition twiddled (n : nat) (odd : list Complex) (k : nat) : Complex :=
  Cmul (cis (-2 * M_PI * INR k / INR n)) (nth k odd C0).

Definition upper_half (n : nat) (even odd : list Complex) (k : nat) : Complex :=
  Cadd (nth k even C0) (twiddled n odd k).

Definition lower_half (n : nat) (even odd : list Complex) (k : nat) : Complex :=
  mkComplex (real (nth k even C0) - real (twiddled n odd k))
            (imag (nth k even C0) - imag (twiddled n odd k)).

(** ** The analysis pass of main *)

(** [rms = sqrt(sum of rec_buffer[i]^2 / REC_BUFFER_SIZE)]. *)
Definition sum_squares (buf : list Z) : R :=
  for_loop 0 REC_BUFFER_SIZE
    (fun i rms => rms + IZR (nth i buf 0%Z) * IZR (nth i buf 0%Z)) 0.

Definition rms_of (buf : list Z) : R := sqrt (sum_squares buf / INR REC_BUFFER_SIZE).

(** A rising zero crossing at index [i]. *)
Definition crossing (buf : list Z) (i : nat) : bool :=
  ((nth (i - 1) buf 0 <? 0) && (nth i buf 0 >=? 0))%Z.

(** The trigger loop with its [break]: the first crossing among the
    indices wins, with none the offset is left as it was. *)
Fixpoint scan_crossing (buf : list Z) (indices : list nat) (trigger_offset : Z) : Z :=
  match indices with
  | [] => trigger_offset
  | i :: rest =>
      if crossing buf i then Z.of_nat i else scan_crossing buf rest trigger_offset
  end.

Definition trigger_scan (buf : list Z) (trigger_offset : Z) : Z :=
  scan_crossing buf (seq 1 (REC_BUFFER_SIZE - 1 - 1)) trigger_offset.

Definition hann (i : nat) : R :=
  0.5 * (1 - cos (2 * M_PI * INR i / INR (REC_BUFFER_SIZE - 1))).

Definition window (buf : list Z) : list Complex :=
  for_loop 0 REC_BUFFER_SIZE
    (fun i fft_input => upd i (mkComplex (IZR (nth i buf 0%Z) * hann i) 0.0) fft_input)
    (repeat C0 REC_BUFFER_SIZE).

Definition bin_db (fft_input : list Complex) (i : nat) : R :=
  let c := nth i fft_input C0 in
  let mag := sqrt (real c * real c + imag c * imag c) in
  20 * log10 (mag + 1e-9).

(** State of the peak-search loop. *)
Record PeakSearch := mkPeakSearch {
  max_db : R;
  peak_index : nat;
  hold : list R }.

Definition peak_step (fft_input : list Complex) (i : nat) (st : PeakSearch) : PeakSearch :=
  let db := bin_db fft_input i in
  let st1 := if Rlt_dec (max_db st) db
             then mkPeakSearch db i (hold st) else st in
  if Rlt_dec (nth i (hold st1) 0) db
  then mkPeakSearch (max_db st1) (peak_index st1) (upd i db (hold st1))
  else st1.

Definition peak_search (fft_input : list Complex) (peak_hold : list R) : PeakSearch :=
  for_loop 1 (REC_BUFFER_SIZE / 2) (peak_step fft_input)
    (mkPeakSearch (-1000.0) 0 peak_hold).

Definition max_freq : R := IZR SAMPLE_RATE / 2.0.

Definition target_freq_of (peak_index : nat) : R :=
  INR peak_index / (INR REC_BUFFER_SIZE / 2.0) * max_freq.

(** [int target_samples = (target_freq > 0) ? ... : 2048], then the two
    clamps. *)
Definition clamp_samples (target_samples : Z) : Z :=
  let target_samples := if (target_samples <? 100)%Z then 100%Z else target_samples in
  if (target_samples >? Z.of_nat REC_BUFFER_SIZE)%Z
  then Z.of_nat REC_BUFFER_SIZE else target_samples.

Definition target_samples_of (target_freq : R) : Z :=
  clamp_samples
    (trunc (if Rlt_dec 0 target_freq
            then 4.0 * (IZR SAMPLE_RATE / target_freq) else 2048)).

Definition timebase (s : AppState) (target_freq : R) : Z :=
  if auto_timebase_on s
  then trunc (0.95 * IZR (scope_display_samples s)
              + 0.05 * IZR (target_samples_of target_freq))
  else 2048%Z.

Definition log_peak_freq_of (target_freq : R) : R :=
  log10 (if Rlt_dec 0 target_freq then target_freq else 1.0).

Definition target_x_of (target_freq : R) : R :=
  let min_log_freq := log10 20.0 in
  let max_log_freq := log10 max_freq in
  let log_freq_range := max_log_freq - min_log_freq in
  IZR spectrum_panel_rect_x
  + ((log_peak_freq_of target_freq - min_log_freq) / log_freq_range)
    * IZR spectrum_panel_rect_w.

(** The [else] branch: the marker fades and snaps to the floor. *)
Definition marker_fade (m : PeakMarker) : PeakMarker :=
  let d := db m * 0.99 in
  if Rlt_dec d 20.0 then mkPeakMarker (x_pos m) 20.0 0.0
  else mkPeakMarker (x_pos m) d (frequency m).

(** The decay loop that closes every analysis pass. *)
Definition decay_peak_hold (peak_hold : list R) : list R :=
  for_loop 0 (REC_BUFFER_SIZE / 2)
    (fun i h => upd i (nth i h 0 * 0.9995) h) peak_hold.

(** The body of [if (!AppState.is_paused)]; [trigger_offset] is the local
    of [main] that lives across iterations. *)
Definition analysis_cycle (s : AppState) (trigger_offset : Z) : AppState * Z :=
  let rms := rms_of (rec_buffer s) in
  let '(s1, trigger_offset1) :=
    if Rlt_dec (squelch_threshold s) rms then
      let trigger_offset1 :=
        if trigger_lock_on s then trigger_scan (rec_buffer s) trigger_offset
        else 0%Z in
      let fft_input := fft (window (rec_buffer s)) REC_BUFFER_SIZE in
      let found := peak_search fft_input (peak_hold_magnitudes s) in
      let target_freq := target_freq_of (peak_index found) in
      let m := peak_marker s in
      let m1 := mkPeakMarker (0.7 * x_pos m + 0.3 * target_x_of target_freq)
                             (0.7 * db m + 0.3 * max_db found)
                             target_freq in
      (set_peak_marker m1
         (set_scope_display_samples (timebase s target_freq)
            (set_peak_hold_magnitudes (hold found) s)),
       trigger_offset1)
    else
      (set_peak_marker (marker_fade (peak_marker s)) s, trigger_offset) in
  (set_peak_hold_magnitudes (decay_peak_hold (peak_hold_magnitudes s1)) s1,
   trigger_offset1).

(** One iteration of the main loop as far as analysis goes. *)
Definition main_analysis (s : AppState) (trigger_offset : Z) : AppState * Z :=
  if is_paused s then (s, trigger_offset) else analysis_cycle s trigger_offset.

Definition reset_peak_hold (s : AppState) : AppState :=
  set_peak_hold_magnitudes
    (for_loop 0 (REC_BUFFER_SIZE / 2) (fun i h => upd i (-1000.0) h)
       (peak_hold_magnitudes s)) s.

(** [recording_callback]: the delivered samples overwrite the front of
    the capture buffer, unless the analyser is paused. *)
Definition recording_callback (stream : list Z) (s : AppState) : AppState :=
  if is_paused s then s
  else
    let copied := firstn REC_BUFFER_SIZE stream in
    set_rec_buffer (copied ++ skipn (length copied) (rec_buffer s)) s.

(** The sum of squares is an integer; this is its exact value. *)
Definition sum_squares_Z (buf : list Z) : Z :=
  for_loop 0 REC_BUFFER_SIZE
    (fun i acc => (acc + nth i buf 0 * nth i buf 0)%Z) 0%Z.

(** [i] is the smallest index in [1 .. REC_BUFFER_SIZE - 2] with a rising
    zero crossing. *)
Definition first_crossing (buf : list Z) (i : nat) : Prop :=
  (1 <= i <= REC_BUFFER_SIZE - 2)%nat /\ crossing buf i = true /\
  forall j, (1 <= j < i)%nat -> crossing buf j = false.

Definition no_crossing (buf : list Z) : Prop :=
  forall j, (1 <= j <= REC_BUFFER_SIZE - 2)%nat -> crossing buf j = false.

(** [k] consecutive analysis passes, each on a capture buffer whose RMS is
    at or below the squelch threshold; audio may arrive before each pass. *)
Inductive quiet_cycles : nat -> AppState * Z -> AppState * Z -> Prop :=
| quiet_done : forall st, quiet_cycles 0 st st
| quiet_more : forall k s trigger_offset stream st',
    rms_of (rec_buffer (recording_callback stream s))
      <= squelch_threshold (recording_callback stream s) ->
    quiet_cycles k (analysis_cycle (recording_callback stream s) trigger_offset) st' ->
    quiet_cycles (S k) (s, trigger_offset) st'.

(** Two capture blocks for the examples: silence, and a square-like block
    of amplitude 1000 whose only rising zero crossing is at index 7. *)
Definition silence : list Z := repeat 0%Z REC_BUFFER_SIZE.

Definition loud_block : list Z :=
  repeat 1000%Z 6 ++ [(-1000)%Z] ++ repeat 1000%Z (REC_BUFFER_SIZE - 7).

(** The state [main] enters its loop with: the initialiser, then
    [reset_peak_hold()]. *)
Definition fresh_state : AppState := reset_peak_hold AppState_init.

(** ** The control surface: the SDL_KEYDOWN switch of main *)

Inductive Key :=
| SDLK_p | SDLK_SPACE | SDLK_r | SDLK_t | SDLK_a | SDLK_w | SDLK_s
| SDLK_UP | SDLK_DOWN | SDLK_RIGHT | SDLK_LEFT
| SDLK_1 | SDLK_2 | SDLK_3 | SDLK_4
| SDLK_other.

Definition set_gen_is_on (v : bool) (g : ToneGenerator) : ToneGenerator :=
  mkToneGenerator v (gen_is_paused g) (wave_type g) (sweep_time g) (sweep_up g)
    (phase g) (current_freq g).

Definition set_gen_is_paused (v : bool) (g : ToneGenerator) : ToneGenerator :=
  mkToneGenerator (is_on g) v (wave_type g) (sweep_time g) (sweep_up g)
    (phase g) (current_freq g).

Definition set_wave_type (v : WaveformType) (g : ToneGenerator) : ToneGenerator :=
  mkToneGenerator (is_on g) (gen_is_paused g) v (sweep_time g) (sweep_up g)
    (phase g) (current_freq g).

Definition set_phase (v : float) (g : ToneGenerator) : ToneGenerator :=
  mkToneGenerator (is_on g) (gen_is_paused g) (wave_type g) (sweep_time g) (sweep_up g)
    v (current_freq g).

(** [x -= step; if (x < low) x = low;] *)
Definition decrement_clamped (x step low : R) : R :=
  let x1 := x - step in
  if Rlt_dec x1 low then low else x1.

Definition handle_key (k : Key) (s : AppState) : AppState :=
  match k with
  | SDLK_p => set_is_paused (negb (is_paused s)) s
  | SDLK_SPACE =>
      set_generator (set_gen_is_paused (negb (gen_is_paused (generator s))) (generator s)) s
  | SDLK_r => reset_peak_hold s
  | SDLK_t => set_trigger_lock_on (negb (trigger_lock_on s)) s
  | SDLK_a => set_auto_timebase_on (negb (auto_timebase_on s)) s
  | SDLK_w => set_scope_gain (scope_gain s + 0.2) s
  | SDLK_s => set_scope_gain (decrement_clamped (scope_gain s) 0.2 0.1) s
  | SDLK_UP => set_squelch_threshold (squelch_threshold s + 50) s
  | SDLK_DOWN => set_squelch_threshold (decrement_clamped (squelch_threshold s) 50 0) s
  | SDLK_RIGHT => set_visual_gain (visual_gain s + 0.05) s
  | SDLK_LEFT => set_visual_gain (decrement_clamped (visual_gain s) 0.05 0) s
  | SDLK_1 => set_generator (set_wave_type WAVE_SINE (generator s)) s
  | SDLK_2 => set_generator (set_wave_type WAVE_SQUARE (generator s)) s
  | SDLK_3 => set_generator (set_wave_type WAVE_SAWTOOTH (generator s)) s
  | SDLK_4 => set_generator (set_wave_type WAVE_TRIANGLE (generator s)) s
  | SDLK_other => s
  end.

Definition handle_keys (keys : list Key) (s : AppState) : AppState :=
  fold_left (fun acc k => handle_key k acc) keys s.

(** A click on the generator button. *)
Definition toggle_generator (s : AppState) : AppState :=
  set_generator (set_gen_is_on (negb (is_on (generator s))) (generator s)) s.

(** What reaches the analyser state while [main] runs: a key press, a
    click on the generator button, a block delivered to
    [recording_callback], or the analysis step of one loop iteration. *)
Inductive Event :=
| Ev_key (k : Key)
| Ev_click
| Ev_capture (stream : list Z)
| Ev_analysis.

Definition main_step (e : Event) (st : AppState * Z) : AppState * Z :=
  match e with
  | Ev_key k => (handle_key k (fst st), snd st)
  | Ev_click => (toggle_generator (fst st), snd st)
  | Ev_capture stream => (recording_callback stream (fst st), snd st)
  | Ev_analysis => main_analysis (fst st) (snd st)
  end.

Definition main_run (events : list Event) (st : AppState * Z) : AppState * Z :=
  fold_left (fun acc e => main_step e acc) events st.

(** The ranges of the three user-adjustable scalars. *)
Definition controls_in_range (s : AppState) : Prop :=
  0 <= squelch_threshold s /\ 0 <= visual_gain s /\ 0.1 <= scope_gain s.

(** A scenario for the trigger: a loud block is analysed with the lock
    on, then the user presses T and silence arrives. *)
Definition after_loud_pass : AppState * Z :=
  analysis_cycle (recording_callback loud_block fresh_state) 0.

Definition unlocked_silent : AppState :=
  recording_callback silence (handle_key SDLK_t (fst after_loud_pass)).

(** ** playback_callback *)

(** The waveform switch, on the phase as a real number. *)
Definition sample_value (w : WaveformType) (phase : R) : R :=
  match w with
  | WAVE_SINE => sin phase
  | WAVE_SQUARE => if Rle_dec 0 (sin phase) then 1.0 else -1.0
  | WAVE_SAWTOOTH => (fmod phase (2.0 * M_PI) / M_PI) - 1.0
  | WAVE_TRIANGLE =>
      2.0 * fabs (fmod (phase / (2.0 * M_PI)) 1.0 * 2.0 - 1.0) - 1.0
  end.

(** [buffer[i] = (Sint16)(12000 * sample)]. *)
Definition output_sample (w : WaveformType) (phase : R) : option Z :=
  cast_Sint16 (12000 * sample_value w phase).

Section GeneratorState.
Local Open Scope float_scope.

Definition M_PI_double : float := 3.14159265358979323846.
Definition sweep_duration_s : float := 20.0.
Definition start_freq : float := 20.0.
Definition end_freq : float := 5000.0.
Definition SAMPLE_RATE_double : float := 44100.

(** The [if (!AppState.generator.is_paused)] block of the sample loop. *)
Definition sweep_step (g : ToneGenerator) : ToneGenerator :=
  let sweep_progress := sweep_time g / sweep_duration_s in
  let freq :=
    if sweep_up g
    then start_freq + (end_freq - start_freq) * sweep_progress
    else end_freq - (end_freq - start_freq) * sweep_progress in
  let time := sweep_time g + 1.0 / SAMPLE_RATE_double in
  if sweep_duration_s <=? time
  then mkToneGenerator (is_on g) (gen_is_paused g) (wave_type g) 0.0
         (negb (sweep_up g)) (phase g) freq
  else mkToneGenerator (is_on g) (gen_is_paused g) (wave_type g) time
         (sweep_up g) (phase g) freq.

(** The generator state after one pass of the sample loop (the sample
    itself is [output_sample] at the phase before the update). *)
Definition sample_step (g : ToneGenerator) : ToneGenerator :=
  let g1 := if gen_is_paused g then g else sweep_step g in
  set_phase (phase g1 + 2.0 * M_PI_double * current_freq g1 / SAMPLE_RATE_double) g1.

Definition run_samples (num_samples : N) (g : ToneGenerator) : ToneGenerator :=
  N.iter num_samples sample_step g.

(** A whole block of [len] bytes: the loop, then one phase wrap. *)
Definition playback_callback (len : Z) (g : ToneGenerator) : ToneGenerator :=
  let num_samples := (len ÷ 2)%Z in
  let g1 := run_samples (Z.to_N num_samples) g in
  if 2.0 * M_PI_double <? phase g1
  then set_phase (phase g1 - 2.0 * M_PI_double) g1
  else g1.

(** The part of the generator that the sweep reads and writes. *)
Definition sweep_state (g : ToneGenerator) : bool * float * bool * float :=
  (gen_is_paused g, sweep_time g, sweep_up g, current_freq g).

(** A sequence of blocks pulled by the playback device. *)
Definition playback_blocks (lens : list Z) (g : ToneGenerator) : ToneGenerator :=
  fold_left (fun acc len => playback_callback len acc) lens g.

Definition samples_in (lens : list Z) : N :=
  fold_left (fun acc len => (acc + Z.to_N (len ÷ 2))%N) lens 0%N.

End GeneratorState.

(** ** freq_to_note *)

Definition note_names : list string :=
  ["C"; "C#"; "D"; "D#"; "E"; "F"; "F#"; "G"; "G#"; "A"; "A#"; "B"]%string.

(** [snprintf(buf, size, ...)] keeps at most [size - 1] characters. *)
Definition snprintf (buffer_size : nat) (text : string) : string :=
  substring 0 (buffer_size - 1) text.

(** The [%d] conversion. *)
Definition print_int (z : Z) : string := NilZero.string_of_int (Z.to_int z).

(** [None] stands for undefined behaviour: a conversion out of the range
    of [int], or a read outside [note_names]. *)
Definition freq_to_note (frequency : R) (buffer_size : nat) : option string :=
  if Rle_dec frequency 0 then Some (snprintf buffer_size "---")
  else
    match cast_int (IZR (round (12 * log2 (frequency / 440.0) + 69))) with
    | None => None
    | Some note_num =>
        let octave := (note_num ÷ 12 - 1)%Z in
        let note_index := Z.rem note_num 12 in
        if ((0 <=? note_index) && (note_index <? 12))%Z
        then Some (snprintf buffer_size
                     (nth (Z.to_nat note_index) note_names ""%string
                      ++ print_int octave))
        else None
    end.

(** ** More of main: the mouse, the play device and the drawing arithmetic *)

(** [generator_button_rect = { SCREEN_WIDTH - 160, SCREEN_HEIGHT - 60, 150, 50 }]. *)
Definition SCREEN_WIDTH : Z := 1024.
Definition SCREEN_HEIGHT : Z := 600.
Definition generator_button_rect_x : Z := SCREEN_WIDTH - 160.
Definition generator_button_rect_y : Z := SCREEN_HEIGHT - 60.
Definition generator_button_rect_w : Z := 150.
Definition generator_button_rect_h : Z := 50.

(** The hit test of the SDL_MOUSEBUTTONDOWN branch: all four edges count
    as inside. *)
Definition in_generator_button (x y : Z) : bool :=
  ((generator_button_rect_x <=? x)
   && (x <=? generator_button_rect_x + generator_button_rect_w)
   && (generator_button_rect_y <=? y)
   && (y <=? generator_button_rect_y + generator_button_rect_h))%Z.

(** A mouse press at [(x, y)].  The boolean beside the state is the pause
    flag of the play device, for a device that was opened; [main] pauses
    it right after opening it. *)
Definition mouse_button_down (x y : Z) (st : AppState * bool) : AppState * bool :=
  if in_generator_button x y
  then let s := toggle_generator (fst st) in (s, negb (is_on (generator s)))
  else st.

Definition mouse_presses (clicks : list (Z * Z)) (st : AppState * bool) : AppState * bool :=
  fold_left (fun acc c => mouse_button_down (fst c) (snd c) acc) clicks st.






(** The rows and columns of the graticules: [rect.y + i * rect.h / parts]
    for [i] from 1 to [parts - 1], in C integer arithmetic. *)
Definition graticule_lines (origin extent parts : Z) : list Z :=
  map (fun i => (origin + (Z.of_nat i * extent) ÷ parts)%Z)
      (seq 1 (Z.to_nat parts - 1)).

(** ** Predicates of the further properties *)

(** Cell-wise [a * x + y] on two arrays. *)
Definition Caxpy (a : Complex) (x y : list Complex) : list Complex :=
  map (fun p => Cadd (Cmul a (fst p)) (snd p)) (combine x y).

Definition Cconj (c : Complex) : Complex := mkComplex (real c) (- imag c).

(** What every state of a run of [main] satisfies. *)
Definition frame_state_ok (st : AppState * Z) : Prop :=
  length (rec_buffer (fst st)) = REC_BUFFER_SIZE
  /\ length (peak_hold_magnitudes (fst st)) = (REC_BUFFER_SIZE / 2)%nat
  /\ (forall i, (i < REC_BUFFER_SIZE / 2)%nat ->
                -1000 <= nth i (peak_hold_magnitudes (fst st)) 0)
  /\ (0 <= snd st <= Z.of_nat REC_BUFFER_SIZE - 2)%Z
  /\ (100 <= scope_display_samples (fst st) <= Z.of_nat REC_BUFFER_SIZE)%Z
  /\ (frequency (peak_marker (fst st)) = 0
      \/ exists p, (1 <= p < REC_BUFFER_SIZE / 2)%nat
                   /\ frequency (peak_marker (fst st)) = target_freq_of p).

(** The events that come from the audio side and the frame loop, as
    opposed to the user. *)
Definition is_audio_event (e : Event) : bool :=
  match e with
  | Ev_capture _ | Ev_analysis => true
  | Ev_key _ | Ev_click => false
  end.

(** The fields of the generator that only the user changes. *)
Definition generator_controls (g : ToneGenerator) : bool * bool * WaveformType :=
  (is_on g, gen_is_paused g, wave_type g).

(** The keys that flip a flag. *)
Definition is_toggle_key (k : Key) : bool :=
  match k with
  | SDLK_p | SDLK_SPACE | SDLK_t | SDLK_a => true
  | _ => false
  end.

(** * Part II: lemmas and theorems *)

(** ** Arrays and loops *)

Section ArrayFacts.
Context {A : Type}.
Local Open Scope nat_scope.

Lemma upd_length (i : nat) (v : A) l : length (upd i v l) = length l.
Proof. revert i; induction l as [|h t IH]; intros [|i]; simpl; auto. Qed.

Lemma nth_upd_eq i (v : A) l d : i < length l -> nth i (upd i v l) d = v.
Proof.
  revert i; induction l as [|h t IH]; intros [|i] Hi; simpl in *; try lia; auto.
  apply IH; lia.
Qed.

Lemma nth_upd_neq i j (v : A) l d : i <> j -> nth j (upd i v l) d = nth j l d.
Proof.
  revert i j; induction l as [|h t IH]; intros [|i] [|j] Hij; simpl; auto; try lia.
Qed.

Lemma upd_out_of_range i (v : A) l : length l <= i -> upd i v l = l.
Proof.
  revert i; induction l as [|h t IH]; intros [|i] Hi; simpl in *; auto; try lia.
  f_equal. apply IH. lia.
Qed.

Lemma for_loop_nil {S : Type} lo hi (body : nat -> S -> S) s :
  hi <= lo -> for_loop lo hi body s = s.
Proof. intros H. unfold for_loop. replace (hi - lo) with 0 by lia. reflexivity. Qed.

Lemma for_loop_S {S : Type} lo hi (body : nat -> S -> S) s :
  lo <= hi -> for_loop lo (Datatypes.S hi) body s = body hi (for_loop lo hi body s).
Proof.
  intros H. unfold for_loop.
  replace (Datatypes.S hi - lo) with (Datatypes.S (hi - lo)) by lia.
  rewrite seq_S, fold_left_app. simpl.
  replace (lo + (hi - lo)) with hi by lia. reflexivity.
Qed.

(** Loop invariant rule: [P i a] relates the loop counter to the state. *)
Lemma for_loop_ind {S : Type} (P : nat -> S -> Prop) lo hi (body : nat -> S -> S) s :
  lo <= hi -> P lo s ->
  (forall i a, lo <= i < hi -> P i a -> P (Datatypes.S i) (body i a)) ->
  P hi (for_loop lo hi body s).
Proof.
  intros Hle H0 Hstep. induction hi as [|hi IH].
  - assert (lo = 0) by lia. subst. rewrite for_loop_nil by lia. exact H0.
  - destruct (Nat.eq_dec lo (Datatypes.S hi)) as [->|Hne].
    + rewrite for_loop_nil by lia. exact H0.
    + rewrite for_loop_S by lia. apply Hstep; [lia|].
      apply IH; [lia|]. intros i a Hi. apply Hstep. lia.
Qed.

Lemma nth_map_seq (f : nat -> A) n i d : i < n -> nth i (map f (seq 0 n)) d = f i.
Proof.
  intros Hi. rewrite (nth_indep _ d (f 0)) by (rewrite length_map, length_seq; exact Hi).
  rewrite (map_nth f (seq 0 n) 0 i), seq_nth by exact Hi. reflexivity.
Qed.

(** A loop that rewrites cell [i] from its own old value at step [i]. *)
Lemma for_loop_pointwise (f : nat -> A -> A) d lo hi l :
  lo <= hi ->
  let l' := for_loop lo hi (fun i a => upd i (f i (nth i a d)) a) l in
  length l' = length l /\
  forall j, nth j l' d =
            if (lo <=? j) && (j <? hi) && (j <? length l)
            then f j (nth j l d) else nth j l d.
Proof.
  intros Hle l'. subst l'.
  apply (for_loop_ind (fun i a =>
           length a = length l /\
           forall j, nth j a d =
                     if (lo <=? j) && (j <? i) && (j <? length l)
                     then f j (nth j l d) else nth j l d)); [exact Hle | |].
  - split; [reflexivity|]. intros j.
    destruct (lo <=? j) eqn:E1; destruct (j <? lo) eqn:E2; simpl; try reflexivity.
    apply Nat.leb_le in E1. apply Nat.ltb_lt in E2. lia.
  - intros i a Hi [Hlen Hnth]. split; [rewrite upd_length; exact Hlen|].
    intros j. destruct (Nat.eq_dec i j) as [<-|Hne].
    + destruct (Nat.lt_ge_cases i (length l)) as [Hin|Hout].
      * rewrite nth_upd_eq by lia. rewrite Hnth.
        replace (lo <=? i) with true by (symmetry; apply Nat.leb_le; lia).
        replace (i <? i) with false by (symmetry; apply Nat.ltb_ge; lia).
        replace (i <? Datatypes.S i) with true by (symmetry; apply Nat.ltb_lt; lia).
        replace (i <? length l) with true by (symmetry; apply Nat.ltb_lt; lia).
        reflexivity.
      * rewrite upd_out_of_range by lia. rewrite Hnth.
        replace (i <? length l) with false by (symmetry; apply Nat.ltb_ge; lia).
        rewrite !andb_false_r. reflexivity.
    + rewrite nth_upd_neq by exact Hne. rewrite Hnth.
      replace (j <? Datatypes.S i) with (j <? i); [reflexivity|].
      destruct (j <? i) eqn:E; symmetry.
      * apply Nat.ltb_lt in E. apply Nat.ltb_lt. lia.
      * apply Nat.ltb_ge in E. apply Nat.ltb_ge. lia.
Qed.

End ArrayFacts.

(** ** Conversions *)

Lemma Int_part_bounds r : IZR (Int_part r) <= r < IZR (Int_part r) + 1.
Proof. destruct (base_Int_part r). lra. Qed.

Lemma Int_part_unique r z : IZR z <= r < IZR z + 1 -> Int_part r = z.
Proof. intros H. symmetry. apply Int_part_spec. lra. Qed.

Lemma Int_part_IZR z : Int_part (IZR z) = z.
Proof. apply Int_part_unique. lra. Qed.

Lemma trunc_IZR z : trunc (IZR z) = z.
Proof.
  unfold trunc. destruct (Rle_dec 0 (IZR z)).
  - apply Int_part_IZR.
  - rewrite <- opp_IZR, Int_part_IZR. lia.
Qed.

Lemma trunc_nonneg d : 0 <= d -> IZR (trunc d) <= d < IZR (trunc d) + 1.
Proof.
  intros H. unfold trunc. destruct (Rle_dec 0 d); [apply Int_part_bounds | contradiction].
Qed.

Lemma trunc_nonpos d : d <= 0 -> IZR (trunc d) - 1 < d <= IZR (trunc d).
Proof.
  intros H. unfold trunc. destruct (Rle_dec 0 d).
  - assert (d = 0) by lra. subst. rewrite Int_part_IZR. simpl. lra.
  - rewrite opp_IZR. pose proof (Int_part_bounds (- d)). lra.
Qed.

Lemma trunc_sign_nonneg d : 0 <= d -> 0 <= IZR (trunc d).
Proof.
  intros H. pose proof (trunc_nonneg d H) as B.
  apply IZR_le. apply Z.lt_succ_r, lt_IZR. rewrite succ_IZR. simpl. lra.
Qed.

Lemma trunc_sign_nonpos d : d <= 0 -> IZR (trunc d) <= 0.
Proof.
  intros H. pose proof (trunc_nonpos d H) as B.
  apply IZR_le. apply Z.lt_succ_r, lt_IZR. rewrite succ_IZR. simpl. lra.
Qed.

(** Truncation loses less than one unit and never moves away from zero. *)
Lemma trunc_error d : Rabs (IZR (trunc d) - d) < 1 /\ Rabs (IZR (trunc d)) <= Rabs d.
Proof.
  destruct (Rle_dec 0 d) as [H|H].
  - pose proof (trunc_nonneg d H). pose proof (trunc_sign_nonneg d H).
    split; [apply Rabs_def1; lra|]. rewrite !Rabs_right by lra. lra.
  - assert (Hd : d <= 0) by lra.
    pose proof (trunc_nonpos d Hd). pose proof (trunc_sign_nonpos d Hd).
    split; [apply Rabs_def1; lra|]. rewrite !Rabs_left1 by lra. lra.
Qed.

Lemma trunc_unique_nonneg d z : 0 <= d -> IZR z <= d < IZR z + 1 -> trunc d = z.
Proof.
  intros H B. unfold trunc. destruct (Rle_dec 0 d); [|contradiction].
  apply Int_part_unique. exact B.
Qed.

Lemma round_IZR z : round (IZR z) = z.
Proof.
  unfold round. destruct (Rle_dec 0 (IZR z)).
  - apply Int_part_unique. lra.
  - assert (Int_part (- IZR z + / 2) = (- z)%Z)
      by (apply Int_part_unique; rewrite opp_IZR; lra).
    lia.
Qed.

Lemma fmod_range x y : 0 <= x -> 0 < y -> 0 <= fmod x y < y.
Proof.
  intros Hx Hy. unfold fmod.
  assert (Hq : 0 <= x / y) by (apply Rmult_le_pos; [lra | left; apply Rinv_0_lt_compat; lra]).
  pose proof (trunc_nonneg (x / y) Hq) as [B1 B2].
  assert (E : x = x / y * y) by (field; lra).
  split.
  - apply Rmult_le_compat_r with (r := y) in B1; lra.
  - apply Rmult_lt_compat_r with (r := y) in B2; lra.
Qed.

Lemma fmod_small x y : 0 <= x < y -> fmod x y = x.
Proof.
  intros [Hx Hy]. unfold fmod.
  assert (Hq : 0 <= x / y < 1).
  { split.
    - apply Rmult_le_pos; [lra | left; apply Rinv_0_lt_compat; lra].
    - apply Rmult_lt_reg_r with y; [lra|]. replace (x / y * y) with x by (field; lra). lra. }
  rewrite (trunc_unique_nonneg (x / y) 0) by (simpl; lra). lra.
Qed.

(** ** fft computes the discrete Fourier transform *)

Lemma Complex_eq a b : real a = real b -> imag a = imag b -> a = b.
Proof. destruct a, b; simpl; intros -> ->; reflexivity. Qed.

Lemma fft_small x n : (n <= 1)%nat -> fft x n = x.
Proof. intros H. rewrite fft_equation_1. destruct (le_lt_dec n 1); [reflexivity | lia]. Qed.

Lemma fft_recursive_case x n :
  (1 < n)%nat ->
  fft x n = for_loop 0 (n / 2)
              (butterfly n (fft (gather x 0 (n / 2)) (n / 2))
                           (fft (gather x 1 (n / 2)) (n / 2))) x.
Proof.
  intros H. rewrite fft_equation_1. destruct (le_lt_dec n 1); [lia | reflexivity].
Qed.

Lemma gather_length x offset half : length (gather x offset half) = half.
Proof. unfold gather. rewrite length_map, length_seq. reflexivity. Qed.

Lemma gather_nth x offset half i :
  (i < half)%nat -> nth i (gather x offset half) C0 = nth (2 * i + offset) x C0.
Proof. intros H. unfold gather. rewrite nth_map_seq by exact H. reflexivity. Qed.

Lemma butterfly_loop_nth n even odd x :
  (n / 2 + n / 2 <= length x)%nat ->
  forall j,
    nth j (for_loop 0 (n / 2) (butterfly n even odd) x) C0 =
    if (j <? n / 2)%nat then upper_half n even odd j
    else if (j <? n / 2 + n / 2)%nat then lower_half n even odd (j - n / 2)
         else nth j x C0.
Proof.
  intros Hlen. set (h := (n / 2)%nat) in *.
  assert (Inv : (h <= h)%nat /\
          length (for_loop 0 h (butterfly n even odd) x) = length x /\
          forall j, nth j (for_loop 0 h (butterfly n even odd) x) C0 =
            if (j <? h)%nat then upper_half n even odd j
            else if ((h <=? j) && (j <? h + h))%nat then lower_half n even odd (j - h)
                 else nth j x C0).
  { apply (for_loop_ind (fun m acc =>
       (m <= h)%nat /\ length acc = length x /\
       forall j, nth j acc C0 =
         if (j <? m)%nat then upper_half n even odd j
         else if ((h <=? j) && (j <? h + m))%nat then lower_half n even odd (j - h)
              else nth j x C0) 0 h (butterfly n even odd) x).
    - lia.
    - split; [lia|]. split; [reflexivity|]. intros j. simpl.
      destruct (h <=? j)%nat eqn:E1; destruct (j <? h + 0)%nat eqn:E2; simpl; try reflexivity.
      apply Nat.leb_le in E1. apply Nat.ltb_lt in E2. lia.
    - intros m acc Hm (Hmh & Hl & Hn). split; [lia|].
      unfold butterfly. fold h. split; [rewrite !upd_length; exact Hl|].
      intros j.
      destruct (Nat.eq_dec j (m + h)) as [->|Hne1].
      + rewrite nth_upd_eq by (rewrite upd_length; lia).
        replace (m + h <? S m)%nat with false by (symmetry; apply Nat.ltb_ge; lia).
        replace (h <=? m + h)%nat with true by (symmetry; apply Nat.leb_le; lia).
        replace (m + h <? h + S m)%nat with true by (symmetry; apply Nat.ltb_lt; lia).
        simpl. replace (m + h - h)%nat with m by lia. reflexivity.
      + rewrite nth_upd_neq by lia.
        destruct (Nat.eq_dec j m) as [->|Hne2].
        * rewrite nth_upd_eq by lia.
          replace (m <? S m)%nat with true by (symmetry; apply Nat.ltb_lt; lia).
          reflexivity.
        * rewrite nth_upd_neq by lia. rewrite Hn.
          replace (j <? S m)%nat with (j <? m)%nat
            by (destruct (j <? m)%nat eqn:E; symmetry;
                [apply Nat.ltb_lt in E; apply Nat.ltb_lt | apply Nat.ltb_ge in E; apply Nat.ltb_ge]; lia).
          replace (j <? h + S m)%nat with (j <? h + m)%nat
            by (destruct (j <? h + m)%nat eqn:E; symmetry;
                [apply Nat.ltb_lt in E; apply Nat.ltb_lt | apply Nat.ltb_ge in E; apply Nat.ltb_ge]; lia).
          reflexivity. }
  destruct Inv as (_ & _ & Hn). intros j. rewrite Hn.
  destruct (j <? h)%nat eqn:E1; [reflexivity|].
  apply Nat.ltb_ge in E1.
  replace (h <=? j)%nat with true by (symmetry; apply Nat.leb_le; lia).
  reflexivity.
Qed.

Lemma Cadd_C0_l a : Cadd C0 a = a.
Proof. apply Complex_eq; simpl; lra. Qed.

Lemma Cmul_comm a b : Cmul a b = Cmul b a.
Proof. apply Complex_eq; simpl; lra. Qed.

Lemma Cmul_assoc a b c : Cmul a (Cmul b c) = Cmul (Cmul a b) c.
Proof. apply Complex_eq; simpl; lra. Qed.

Lemma Cmul_Cadd_distr_r a b c : Cmul (Cadd a b) c = Cadd (Cmul a c) (Cmul b c).
Proof. apply Complex_eq; simpl; lra. Qed.

Lemma cis_0 : cis 0 = mkComplex 1 0.
Proof. unfold cis. rewrite cos_0, sin_0. reflexivity. Qed.

Lemma cis_plus a b : cis (a + b) = Cmul (cis a) (cis b).
Proof. unfold cis, Cmul. simpl. rewrite cos_plus, sin_plus. apply Complex_eq; simpl; lra. Qed.

(** Whole turns do not change [cis]. *)
Lemma cis_turns a (i : nat) : cis (a - 2 * PI * INR i) = cis a.
Proof.
  unfold cis. apply Complex_eq; simpl.
  - rewrite <- (cos_period (a - 2 * PI * INR i) i). f_equal. lra.
  - rewrite <- (sin_period (a - 2 * PI * INR i) i). f_equal. lra.
Qed.

(** Half a turn negates it. *)
Lemma cis_half_turn a : cis (a - PI) = Cmul (cis a) (mkComplex (-1) 0).
Proof.
  unfold cis, Cmul. apply Complex_eq; simpl.
  - replace (cos a) with (cos (a - PI + PI)) by (f_equal; lra). rewrite neg_cos. lra.
  - replace (sin a) with (sin (a - PI + PI)) by (f_equal; lra). rewrite neg_sin. lra.
Qed.

Lemma Csum_ext f g n :
  (forall i, (i < n)%nat -> f i = g i) -> Csum f n = Csum g n.
Proof.
  induction n as [|n IH]; intros H; simpl; [reflexivity|].
  rewrite IH by (intros i Hi; apply H; lia). rewrite H by lia. reflexivity.
Qed.

Lemma Csum_Cmul_r f c n : Csum (fun i => Cmul (f i) c) n = Cmul (Csum f n) c.
Proof.
  induction n as [|n IH]; simpl.
  - apply Complex_eq; simpl; lra.
  - rewrite IH, Cmul_Cadd_distr_r. reflexivity.
Qed.

(** A sum over [2 h] indices, split into its even and odd terms: the
    decimation in time. *)
Lemma Csum_parity f h :
  Csum f (2 * h) = Cadd (Csum (fun i => f (2 * i)%nat) h)
                        (Csum (fun i => f (2 * i + 1)%nat) h).
Proof.
  induction h as [|h IH].
  - simpl. apply Complex_eq; simpl; lra.
  - replace (2 * S h)%nat with (S (S (2 * h))) by lia.
    cbn [Csum]. rewrite IH.
    replace (S (2 * h)) with (2 * h + 1)%nat by lia.
    apply Complex_eq; simpl; lra.
Qed.

(** The spectrum of length [2 h] from the spectra of the even and the odd
    samples, at an index [kk] that is [k] or [k + h]. *)
Lemma dft_decimation x h k kk sign :
  (0 < h)%nat ->
  (forall i, cis (-2 * PI * INR (2 * i) * INR kk / INR (2 * h))
             = cis (-2 * PI * INR i * INR k / INR h)) ->
  (forall i, cis (-2 * PI * INR (2 * i + 1) * INR kk / INR (2 * h))
             = Cmul (cis (-2 * PI * INR i * INR k / INR h))
                    (Cmul (cis (-2 * M_PI * INR k / INR (2 * h))) sign)) ->
  dft x (2 * h) kk =
  Cadd (dft (gather x 0 h) h k)
       (Cmul (Cmul (cis (-2 * M_PI * INR k / INR (2 * h))) sign)
             (dft (gather x 1 h) h k)).
Proof.
  intros Hh Heven Hodd. unfold dft at 1. rewrite Csum_parity. f_equal.
  - unfold dft. apply Csum_ext. intros i Hi.
    rewrite gather_nth by exact Hi. rewrite Heven.
    replace (2 * i + 0)%nat with (2 * i)%nat by lia. reflexivity.
  - rewrite (Cmul_comm _ (dft _ _ _)). unfold dft. rewrite <- Csum_Cmul_r.
    apply Csum_ext. intros i Hi.
    rewrite gather_nth by exact Hi. rewrite Hodd. apply Cmul_assoc.
Qed.

Lemma INR_double h : INR (2 * h) = 2 * INR h.
Proof. rewrite mult_INR. simpl. lra. Qed.

Lemma dft_upper x h k :
  (0 < h)%nat -> (k < h)%nat ->
  dft x (2 * h) k =
  upper_half (2 * h) (map (dft (gather x 0 h) h) (seq 0 h))
                     (map (dft (gather x 1 h) h) (seq 0 h)) k.
Proof.
  intros Hh Hk.
  assert (Hne : INR h <> 0) by (apply not_0_INR; lia).
  unfold upper_half, twiddled. rewrite !nth_map_seq by exact Hk.
  rewrite (dft_decimation x h k k (mkComplex 1 0) Hh).
  - f_equal. f_equal. apply Complex_eq; simpl; lra.
  - intros i. f_equal. rewrite !INR_double. field. exact Hne.
  - intros i.
    replace (Cmul (cis (-2 * M_PI * INR k / INR (2 * h))) (mkComplex 1 0))
      with (cis (-2 * M_PI * INR k / INR (2 * h))) by (apply Complex_eq; simpl; lra).
    rewrite <- cis_plus. f_equal. unfold M_PI.
    rewrite plus_INR, !INR_double. simpl. field. exact Hne.
Qed.

Lemma dft_lower x h k :
  (0 < h)%nat -> (k < h)%nat ->
  dft x (2 * h) (k + h) =
  lower_half (2 * h) (map (dft (gather x 0 h) h) (seq 0 h))
                     (map (dft (gather x 1 h) h) (seq 0 h)) k.
Proof.
  intros Hh Hk.
  assert (Hne : INR h <> 0) by (apply not_0_INR; lia).
  unfold lower_half, twiddled. rewrite !nth_map_seq by exact Hk.
  rewrite (dft_decimation x h k (k + h) (mkComplex (-1) 0) Hh).
  - apply Complex_eq; simpl; lra.
  - intros i. symmetry. rewrite <- (cis_turns _ i). f_equal.
    rewrite plus_INR, !INR_double. field. exact Hne.
  - intros i. rewrite (Cmul_assoc _ _ (mkComplex (-1) 0)), <- cis_plus, <- cis_half_turn.
    symmetry. rewrite <- (cis_turns _ i). f_equal. unfold M_PI.
    rewrite !plus_INR, !INR_double. simpl. field. exact Hne.
Qed.

Lemma pow2_pos m : (0 < 2 ^ m)%nat.
Proof. induction m; simpl; lia. Qed.

Lemma fft_length x n : length (fft x n) = length x.
Proof.
  revert x. induction n as [n IH] using lt_wf_ind. intros x.
  destruct (le_lt_dec n 1) as [H|H].
  - rewrite fft_small by exact H. reflexivity.
  - rewrite fft_recursive_case by exact H.
    apply (for_loop_ind (fun _ acc => length acc = length x)); [lia | reflexivity |].
    intros i a _ Ha. unfold butterfly. rewrite !upd_length. exact Ha.
Qed.

(** Two arrays with the same cells are the same array. *)
Lemma nth_ext_C0 (a b : list Complex) :
  length a = length b -> (forall i, (i < length a)%nat -> nth i a C0 = nth i b C0) -> a = b.
Proof. intros Hl H. apply (nth_ext a b C0 C0 Hl H). Qed.

Lemma fft_dft_array m :
  forall x, length x = (2 ^ m)%nat ->
            fft x (2 ^ m) = map (dft x (2 ^ m)) (seq 0 (2 ^ m)).
Proof.
  induction m as [|m IH]; intros x Hlen.
  - simpl in *. rewrite fft_small by lia.
    destruct x as [|c [|c' x']]; simpl in Hlen; try discriminate.
    simpl. f_equal. unfold dft. simpl.
    replace (-2 * PI * 0 * 0 / 1) with 0 by lra. rewrite cis_0.
    apply Complex_eq; simpl; lra.
  - pose proof (pow2_pos m) as Hpos.
    replace (2 ^ S m)%nat with (2 * 2 ^ m)%nat in * by (simpl; lia).
    set (h := (2 ^ m)%nat) in *.
    assert (Hdiv : ((2 * h) / 2 = h)%nat) by (rewrite Nat.mul_comm; apply Nat.div_mul; lia).
    rewrite fft_recursive_case by lia. rewrite Hdiv.
    rewrite (IH (gather x 0 h)) by apply gather_length.
    rewrite (IH (gather x 1 h)) by apply gather_length.
    apply nth_ext_C0.
    + apply (for_loop_ind (fun _ acc => length acc = length (map (dft x (2 * h)) (seq 0 (2 * h)))));
        [lia | rewrite length_map, length_seq; exact Hlen |].
      intros i a _ Ha. unfold butterfly. rewrite !upd_length. exact Ha.
    + intros j Hj.
      assert (Hjn : (j < 2 * h)%nat).
      { rewrite <- Hlen. rewrite <- (fft_length x (2 * h)).
        rewrite fft_recursive_case by lia. rewrite Hdiv.
        rewrite (IH (gather x 0 h)) by apply gather_length.
        rewrite (IH (gather x 1 h)) by apply gather_length. exact Hj. }
      pose proof (butterfly_loop_nth (2 * h)
                    (map (dft (gather x 0 h) h) (seq 0 h))
                    (map (dft (gather x 1 h) h) (seq 0 h)) x) as B.
      rewrite Hdiv in B. rewrite B by lia. clear B.
      rewrite nth_map_seq by exact Hjn.
      destruct (j <? h)%nat eqn:E1.
      * apply Nat.ltb_lt in E1.
        symmetry. apply dft_upper; assumption.
      * apply Nat.ltb_ge in E1.
        replace (j <? h + h)%nat with true by (symmetry; apply Nat.ltb_lt; lia).
        rewrite <- dft_lower by lia. f_equal. lia.
Qed.

Lemma Csum_first f n :
  (forall j, (0 < j)%nat -> f j = C0) -> Csum f (S n) = f 0%nat.
Proof.
  intros H. induction n as [|n IH].
  - simpl. apply Cadd_C0_l.
  - change (Csum f (S (S n))) with (Cadd (Csum f (S n)) (f (S n))).
    rewrite IH, (H (S n)) by lia. apply Complex_eq; simpl; lra.
Qed.

Lemma dft_impulse n k : (0 < n)%nat -> dft (impulse n) n k = mkComplex 1 0.
Proof.
  intros Hn. destruct n as [|n]; [lia|]. unfold dft.
  rewrite Csum_first.
  - simpl. replace (-2 * PI * 0 * INR k / _) with 0 by (unfold Rdiv; ring).
    rewrite cis_0. apply Complex_eq; simpl; lra.
  - intros j Hj. destruct j as [|j]; [lia|].
    cbn [impulse nth]. rewrite nth_repeat. apply Complex_eq; simpl; lra.
Qed.

Lemma impulse_length n : length (impulse n) = n.
Proof. destruct n; simpl; [reflexivity|]. rewrite repeat_length. reflexivity. Qed.

(** C1: for every complex sequence [x] whose length is a power of two,
    [fft x n] holds in cell [k] the discrete Fourier transform
    [sum over j < n of x[j] * e^{-2 pi i j k / n}], for every [k < n]; and
    the transform of the unit impulse has magnitude 1 in every bin.
    (Doubles are read as real numbers.) *)
Theorem fft_computes_dft (m : nat) (x : list Complex) (k : nat) :
  length x = (2 ^ m)%nat ->
  (k < 2 ^ m)%nat ->
  nth k (fft x (2 ^ m)) C0 = dft x (2 ^ m) k
  /\ magnitude (nth k (fft (impulse (2 ^ m)) (2 ^ m)) C0) = 1.
Proof.
  intros Hlen Hk. split.
  - rewrite fft_dft_array by exact Hlen. apply nth_map_seq. exact Hk.
  - rewrite fft_dft_array by apply impulse_length.
    rewrite nth_map_seq by exact Hk.
    rewrite dft_impulse by apply pow2_pos.
    unfold magnitude. simpl.
    replace (1 * 1 + 0 * 0) with 1 by lra. apply sqrt_1.
Qed.

Lemma fft_computes_dft_witness :
  nth 1 (fft [mkComplex 3 0; mkComplex 5 1] (2 ^ 1)) C0
  = dft [mkComplex 3 0; mkComplex 5 1] (2 ^ 1) 1
  /\ magnitude (nth 1 (fft (impulse (2 ^ 1)) (2 ^ 1)) C0) = 1.
Proof.
  apply (fft_computes_dft 1 [mkComplex 3 0; mkComplex 5 1] 1).
  - reflexivity.
  - simpl. lia.
Defined.

(** ** The analysis pass *)

Lemma for_loop_rel {U T : Type} (Rel : U -> T -> Prop) lo hi
    (f : nat -> U -> U) (g : nat -> T -> T) s t :
  Rel s t ->
  (forall i a b, (lo <= i < hi)%nat -> Rel a b -> Rel (f i a) (g i b)) ->
  Rel (for_loop lo hi f s) (for_loop lo hi g t).
Proof.
  intros H0 Hstep. destruct (Nat.le_gt_cases lo hi) as [Hle|Hgt].
  - induction hi as [|hi IH].
    + rewrite !for_loop_nil by lia. exact H0.
    + destruct (Nat.eq_dec lo (S hi)) as [->|Hne].
      * rewrite !for_loop_nil by lia. exact H0.
      * rewrite !for_loop_S by lia. apply Hstep; [lia|].
        apply IH; [|lia]. intros i a b Hi. apply Hstep. lia.
  - rewrite !for_loop_nil by lia. exact H0.
Qed.

Lemma sum_squares_exact buf : sum_squares buf = IZR (sum_squares_Z buf).
Proof.
  unfold sum_squares, sum_squares_Z.
  apply (for_loop_rel (fun (r : R) (z : Z) => r = IZR z)); [reflexivity|].
  intros i a b _ ->. rewrite plus_IZR, mult_IZR. reflexivity.
Qed.

Lemma rms_of_exact buf :
  rms_of buf = sqrt (IZR (sum_squares_Z buf) / 4096).
Proof.
  unfold rms_of. rewrite sum_squares_exact. f_equal. f_equal.
  unfold REC_BUFFER_SIZE. rewrite INR_IZR_INZ. f_equal.
Qed.

Lemma rms_of_silence : rms_of silence = 0.
Proof.
  rewrite rms_of_exact.
  replace (sum_squares_Z silence) with 0%Z by (vm_compute; reflexivity).
  replace (0 / 4096) with 0 by lra. apply sqrt_0.
Qed.

Lemma rms_of_loud_block : rms_of loud_block = 1000.
Proof.
  rewrite rms_of_exact.
  replace (sum_squares_Z loud_block) with 4096000000%Z by (vm_compute; reflexivity).
  replace (4096000000 / 4096) with (1000 * 1000) by lra.
  apply sqrt_square. lra.
Qed.

(** The pass leaves the controls and the capture buffer alone. *)
Lemma analysis_cycle_frame s off :
  let s' := fst (analysis_cycle s off) in
  is_running s' = is_running s /\ is_paused s' = is_paused s /\
  trigger_lock_on s' = trigger_lock_on s /\
  auto_timebase_on s' = auto_timebase_on s /\
  rec_buffer s' = rec_buffer s /\
  squelch_threshold s' = squelch_threshold s /\
  visual_gain s' = visual_gain s /\ scope_gain s' = scope_gain s /\
  generator s' = generator s.
Proof.
  unfold analysis_cycle.
  destruct (Rlt_dec (squelch_threshold s) (rms_of (rec_buffer s))); simpl;
    repeat split; reflexivity.
Qed.

Lemma analysis_cycle_quiet s off :
  rms_of (rec_buffer s) <= squelch_threshold s ->
  analysis_cycle s off =
  (set_peak_hold_magnitudes (decay_peak_hold (peak_hold_magnitudes s))
     (set_peak_marker (marker_fade (peak_marker s)) s), off).
Proof.
  intros H. unfold analysis_cycle.
  destruct (Rlt_dec (squelch_threshold s) (rms_of (rec_buffer s))); [lra | reflexivity].
Qed.

Lemma analysis_cycle_loud_offset s off :
  squelch_threshold s < rms_of (rec_buffer s) ->
  snd (analysis_cycle s off) =
  if trigger_lock_on s then trigger_scan (rec_buffer s) off else 0%Z.
Proof.
  intros H. unfold analysis_cycle.
  destruct (Rlt_dec (squelch_threshold s) (rms_of (rec_buffer s))); [reflexivity | lra].
Qed.

Lemma decay_peak_hold_nth h i :
  (i < REC_BUFFER_SIZE / 2)%nat ->
  nth i (decay_peak_hold h) 0 = nth i h 0 * 0.9995.
Proof.
  intros Hi. unfold decay_peak_hold.
  destruct (for_loop_pointwise (fun _ v => v * 0.9995) 0 0 (REC_BUFFER_SIZE / 2) h
              (Nat.le_0_l _)) as [_ Hn].
  rewrite Hn. clear Hn.
  replace (i <? REC_BUFFER_SIZE / 2)%nat with true by (symmetry; apply Nat.ltb_lt; exact Hi).
  change (0 <=? i)%nat with true. cbn [andb].
  destruct (i <? length h)%nat eqn:E; [reflexivity|].
  apply Nat.ltb_ge in E. rewrite nth_overflow by exact E. lra.
Qed.

Lemma decay_peak_hold_length h : length (decay_peak_hold h) = length h.
Proof.
  unfold decay_peak_hold.
  apply (for_loop_pointwise (fun _ v => v * 0.9995) 0 0 (REC_BUFFER_SIZE / 2) h
           (Nat.le_0_l _)).
Qed.

Lemma reset_peak_hold_nth s i :
  (i < REC_BUFFER_SIZE / 2)%nat -> (i < length (peak_hold_magnitudes s))%nat ->
  nth i (peak_hold_magnitudes (reset_peak_hold s)) 0 = -1000.
Proof.
  intros Hi Hl. unfold reset_peak_hold, set_peak_hold_magnitudes.
  cbn [peak_hold_magnitudes].
  destruct (for_loop_pointwise (fun _ _ => -1000.0) 0 0 (REC_BUFFER_SIZE / 2)
              (peak_hold_magnitudes s) (Nat.le_0_l _)) as [_ Hn].
  rewrite Hn.
  replace (i <? REC_BUFFER_SIZE / 2)%nat with true by (symmetry; apply Nat.ltb_lt; exact Hi).
  replace (i <? length (peak_hold_magnitudes s))%nat with true
    by (symmetry; apply Nat.ltb_lt; exact Hl).
  change (0 <=? i)%nat with true. cbn [andb]. lra.
Qed.

Lemma recording_callback_buffer stream s :
  is_paused s = false ->
  rec_buffer (recording_callback stream s) =
  firstn REC_BUFFER_SIZE stream
    ++ skipn (length (firstn REC_BUFFER_SIZE stream)) (rec_buffer s).
Proof. intros H. unfold recording_callback. rewrite H. reflexivity. Qed.

Lemma recording_callback_frame stream s :
  let s' := recording_callback stream s in
  is_paused s' = is_paused s /\ trigger_lock_on s' = trigger_lock_on s /\
  squelch_threshold s' = squelch_threshold s /\
  peak_hold_magnitudes s' = peak_hold_magnitudes s /\
  peak_marker s' = peak_marker s /\
  scope_display_samples s' = scope_display_samples s.
Proof.
  unfold recording_callback. destruct (is_paused s) eqn:E; simpl; rewrite ?E; repeat split.
Qed.

Lemma decay_factor_range k : 0 < 0.9995 ^ k <= 1.
Proof.
  induction k as [|k IH]; simpl; [lra|]. destruct IH as [IH1 IH2]. split; nra.
Qed.

(** Over [k] squelched passes every cell of the peak hold is scaled by
    [0.9995 ^ k]. *)
Lemma quiet_cycles_scale k st st' :
  quiet_cycles k st st' ->
  forall i, (i < REC_BUFFER_SIZE / 2)%nat ->
    nth i (peak_hold_magnitudes (fst st')) 0
    = nth i (peak_hold_magnitudes (fst st)) 0 * 0.9995 ^ k.
Proof.
  induction 1 as [st | k s off stream st' Hq Hrun IH]; intros i Hi.
  - simpl. lra.
  - rewrite IH by exact Hi. rewrite analysis_cycle_quiet by exact Hq.
    cbn [fst set_peak_hold_magnitudes peak_hold_magnitudes set_peak_marker].
    rewrite decay_peak_hold_nth by exact Hi.
    destruct (recording_callback_frame stream s) as (_ & _ & _ & -> & _).
    simpl. lra.
Qed.

(** C2 (as amended): [reset_peak_hold] sets every cell to exactly -1000;
    over [k] consecutive passes at or below the squelch threshold each
    pass multiplies every cell by 0.9995, so a cell ends at its start
    value times [0.9995 ^ k]: a non-negative cell does not increase, a
    negative cell (such as the -1000 floor) moves up toward zero, and a
    cell that starts at or above -1000 stays at or above -1000. *)
Theorem peak_hold_reset_and_decay (k : nat) (s : AppState) (trigger_offset : Z)
    (st' : AppState * Z) (i : nat) :
  length (peak_hold_magnitudes s) = (REC_BUFFER_SIZE / 2)%nat ->
  (i < REC_BUFFER_SIZE / 2)%nat ->
  quiet_cycles k (s, trigger_offset) st' ->
  nth i (peak_hold_magnitudes (reset_peak_hold s)) 0 = -1000
  /\ nth i (peak_hold_magnitudes (fst st')) 0
     = nth i (peak_hold_magnitudes s) 0 * 0.9995 ^ k
  /\ (0 <= nth i (peak_hold_magnitudes s) 0 ->
      nth i (peak_hold_magnitudes (fst st')) 0 <= nth i (peak_hold_magnitudes s) 0)
  /\ (nth i (peak_hold_magnitudes s) 0 <= 0 ->
      nth i (peak_hold_magnitudes s) 0 <= nth i (peak_hold_magnitudes (fst st')) 0)
  /\ (-1000 <= nth i (peak_hold_magnitudes s) 0 ->
      -1000 <= nth i (peak_hold_magnitudes (fst st')) 0).
Proof.
  intros Hlen Hi Hrun.
  pose proof (quiet_cycles_scale k _ _ Hrun i Hi) as E. cbn [fst] in E.
  pose proof (decay_factor_range k) as [C1 C2].
  split; [apply reset_peak_hold_nth; [exact Hi | rewrite Hlen; exact Hi]|].
  split; [exact E|].
  rewrite E. set (v := nth i (peak_hold_magnitudes s) 0). set (c := 0.9995 ^ k) in *.
  repeat split; intros Hv; nra.
Qed.

Lemma reset_peak_hold_length s :
  length (peak_hold_magnitudes (reset_peak_hold s)) = length (peak_hold_magnitudes s).
Proof.
  unfold reset_peak_hold, set_peak_hold_magnitudes. cbn [peak_hold_magnitudes].
  apply (for_loop_pointwise (fun _ _ => -1000.0) 0 0 (REC_BUFFER_SIZE / 2)
           (peak_hold_magnitudes s) (Nat.le_0_l _)).
Qed.

Lemma half_buffer_positive : (0 < REC_BUFFER_SIZE / 2)%nat.
Proof. apply Nat.div_str_pos. unfold REC_BUFFER_SIZE. lia. Qed.

Lemma fresh_state_quiet :
  rms_of (rec_buffer (recording_callback silence fresh_state))
  <= squelch_threshold (recording_callback silence fresh_state).
Proof.
  rewrite recording_callback_buffer by reflexivity.
  destruct (recording_callback_frame silence fresh_state) as (_ & _ & -> & _).
  replace (firstn REC_BUFFER_SIZE silence
           ++ skipn (length (firstn REC_BUFFER_SIZE silence)) (rec_buffer fresh_state))
    with silence by (vm_compute; reflexivity).
  rewrite rms_of_silence.
  change (squelch_threshold fresh_state) with 500.0. lra.
Qed.

Lemma peak_hold_reset_and_decay_witness :
  nth 0 (peak_hold_magnitudes (reset_peak_hold fresh_state)) 0 = -1000
  /\ nth 0 (peak_hold_magnitudes
              (fst (analysis_cycle (recording_callback silence fresh_state) 0))) 0
     = nth 0 (peak_hold_magnitudes fresh_state) 0 * 0.9995 ^ 1
  /\ (0 <= nth 0 (peak_hold_magnitudes fresh_state) 0 ->
      nth 0 (peak_hold_magnitudes
               (fst (analysis_cycle (recording_callback silence fresh_state) 0))) 0
      <= nth 0 (peak_hold_magnitudes fresh_state) 0)
  /\ (nth 0 (peak_hold_magnitudes fresh_state) 0 <= 0 ->
      nth 0 (peak_hold_magnitudes fresh_state) 0
      <= nth 0 (peak_hold_magnitudes
                  (fst (analysis_cycle (recording_callback silence fresh_state) 0))) 0)
  /\ (-1000 <= nth 0 (peak_hold_magnitudes fresh_state) 0 ->
      -1000 <= nth 0 (peak_hold_magnitudes
                        (fst (analysis_cycle (recording_callback silence fresh_state) 0))) 0).
Proof.
  apply (peak_hold_reset_and_decay 1 fresh_state 0
           (analysis_cycle (recording_callback silence fresh_state) 0) 0).
  - unfold fresh_state. rewrite reset_peak_hold_length.
    cbn [peak_hold_magnitudes AppState_init]. apply repeat_length.
  - exact half_buffer_positive.
  - apply (quiet_more 0 fresh_state 0 silence).
    + exact fresh_state_quiet.
    + apply quiet_done.
Defined.

(** C2 (as stated) fails: right after a reset, with silence in the capture
    buffer, one pass takes cell 0 of the peak hold from -1000 up to
    -999.5, so the cell is not non-increasing. *)
Lemma peak_hold_claim_counterexample :
  rms_of (rec_buffer fresh_state) <= squelch_threshold fresh_state
  /\ nth 0 (peak_hold_magnitudes fresh_state) 0 = -1000
  /\ nth 0 (peak_hold_magnitudes (fst (analysis_cycle fresh_state 0))) 0 = -999.5
  /\ nth 0 (peak_hold_magnitudes (fst (analysis_cycle fresh_state 0))) 0
     > nth 0 (peak_hold_magnitudes fresh_state) 0.
Proof.
  assert (Hq : rms_of (rec_buffer fresh_state) <= squelch_threshold fresh_state).
  { change (rec_buffer fresh_state) with silence.
    change (squelch_threshold fresh_state) with 500.0.
    rewrite rms_of_silence. lra. }
  assert (H0 : nth 0 (peak_hold_magnitudes fresh_state) 0 = -1000).
  { apply reset_peak_hold_nth; [exact half_buffer_positive|].
    cbn [peak_hold_magnitudes AppState_init]. rewrite repeat_length.
    exact half_buffer_positive. }
  assert (H1 : nth 0 (peak_hold_magnitudes (fst (analysis_cycle fresh_state 0))) 0 = -999.5).
  { rewrite analysis_cycle_quiet by exact Hq.
    cbn [fst set_peak_hold_magnitudes peak_hold_magnitudes set_peak_marker].
    rewrite decay_peak_hold_nth by exact half_buffer_positive.
    rewrite H0. lra. }
  repeat split; try assumption. rewrite H0, H1. lra.
Qed.

(** The same first step in binary64: [-1000.0 * 0.9995] is above
    [-1000.0] there too. *)
Lemma decay_of_floor_binary64 :
  PrimFloat.ltb (-1000)%float (PrimFloat.mul (-1000)%float 0.9995%float) = true.
Proof. vm_compute. reflexivity. Qed.

(** *** Squelched passes *)

(** C7: in a pass whose capture-buffer RMS is at or below the squelch
    threshold the marker's dB value is multiplied by 0.99 and, when the
    product is below 20.0, set to exactly 20.0 with the marker frequency
    set to 0.0; the marker position, the trigger offset and the display
    sample count are unchanged, and the peak hold changes only by the
    0.9995 decay of every cell. *)
Theorem squelched_cycle_effect (s : AppState) (trigger_offset : Z) :
  rms_of (rec_buffer s) <= squelch_threshold s ->
  (db (peak_marker s) * 0.99 < 20.0 ->
     db (peak_marker (fst (analysis_cycle s trigger_offset))) = 20.0 /\
     frequency (peak_marker (fst (analysis_cycle s trigger_offset))) = 0.0)
  /\ (~ db (peak_marker s) * 0.99 < 20.0 ->
     db (peak_marker (fst (analysis_cycle s trigger_offset)))
       = db (peak_marker s) * 0.99 /\
     frequency (peak_marker (fst (analysis_cycle s trigger_offset)))
       = frequency (peak_marker s))
  /\ x_pos (peak_marker (fst (analysis_cycle s trigger_offset))) = x_pos (peak_marker s)
  /\ snd (analysis_cycle s trigger_offset) = trigger_offset
  /\ scope_display_samples (fst (analysis_cycle s trigger_offset))
     = scope_display_samples s
  /\ length (peak_hold_magnitudes (fst (analysis_cycle s trigger_offset)))
     = length (peak_hold_magnitudes s)
  /\ (forall i, (i < REC_BUFFER_SIZE / 2)%nat ->
        nth i (peak_hold_magnitudes (fst (analysis_cycle s trigger_offset))) 0
        = nth i (peak_hold_magnitudes s) 0 * 0.9995).
Proof.
  intros Hq. rewrite analysis_cycle_quiet by exact Hq.
  cbn [fst snd set_peak_hold_magnitudes set_peak_marker peak_hold_magnitudes
       peak_marker scope_display_samples].
  unfold marker_fade.
  destruct (Rlt_dec (db (peak_marker s) * 0.99) 20.0) as [Hlt|Hge];
    cbn [db frequency x_pos];
    (split; [intros H; try contradiction; split; reflexivity|]);
    (split; [intros H; try contradiction; split; reflexivity|]);
    (split; [reflexivity|]); (split; [reflexivity|]); (split; [reflexivity|]);
    (split; [apply decay_peak_hold_length|]);
    intros i Hi; apply decay_peak_hold_nth; exact Hi.
Qed.

Lemma AppState_init_quiet :
  rms_of (rec_buffer AppState_init) <= squelch_threshold AppState_init.
Proof.
  change (rec_buffer AppState_init) with silence.
  change (squelch_threshold AppState_init) with 500.0.
  rewrite rms_of_silence. lra.
Qed.

Lemma squelched_cycle_effect_witness :
  (db (peak_marker AppState_init) * 0.99 < 20.0 ->
     db (peak_marker (fst (analysis_cycle AppState_init 3))) = 20.0 /\
     frequency (peak_marker (fst (analysis_cycle AppState_init 3))) = 0.0)
  /\ (~ db (peak_marker AppState_init) * 0.99 < 20.0 ->
     db (peak_marker (fst (analysis_cycle AppState_init 3)))
       = db (peak_marker AppState_init) * 0.99 /\
     frequency (peak_marker (fst (analysis_cycle AppState_init 3)))
       = frequency (peak_marker AppState_init))
  /\ x_pos (peak_marker (fst (analysis_cycle AppState_init 3)))
     = x_pos (peak_marker AppState_init)
  /\ snd (analysis_cycle AppState_init 3) = 3%Z
  /\ scope_display_samples (fst (analysis_cycle AppState_init 3))
     = scope_display_samples AppState_init
  /\ length (peak_hold_magnitudes (fst (analysis_cycle AppState_init 3)))
     = length (peak_hold_magnitudes AppState_init)
  /\ (forall i, (i < REC_BUFFER_SIZE / 2)%nat ->
        nth i (peak_hold_magnitudes (fst (analysis_cycle AppState_init 3))) 0
        = nth i (peak_hold_magnitudes AppState_init) 0 * 0.9995).
Proof.
  apply (squelched_cycle_effect AppState_init 3). exact AppState_init_quiet.
Defined.

(** *** Trigger detection *)

Lemma scan_crossing_none buf n : forall lo off,
  (forall j, (lo <= j < lo + n)%nat -> crossing buf j = false) ->
  scan_crossing buf (seq lo n) off = off.
Proof.
  induction n as [|n IH]; intros lo off H; simpl; [reflexivity|].
  rewrite (H lo) by lia. apply IH. intros j Hj. apply H. lia.
Qed.

Lemma scan_crossing_first buf n : forall lo off i,
  (lo <= i < lo + n)%nat ->
  crossing buf i = true ->
  (forall j, (lo <= j < i)%nat -> crossing buf j = false) ->
  scan_crossing buf (seq lo n) off = Z.of_nat i.
Proof.
  induction n as [|n IH]; intros lo off i Hi Hc Hbefore; [lia|].
  simpl. destruct (Nat.eq_dec lo i) as [->|Hne].
  - rewrite Hc. reflexivity.
  - rewrite (Hbefore lo) by lia. apply IH; [lia | exact Hc |].
    intros j Hj. apply Hbefore. lia.
Qed.

(** Either there is a first crossing or there is none: the two cases of
    the scan cover every buffer. *)
Lemma crossing_cases buf : (exists i, first_crossing buf i) \/ no_crossing buf.
Proof.
  unfold first_crossing, no_crossing.
  assert (G : forall n,
             (exists i, (1 <= i <= n)%nat /\ crossing buf i = true /\
                        forall j, (1 <= j < i)%nat -> crossing buf j = false)
             \/ (forall j, (1 <= j <= n)%nat -> crossing buf j = false)).
  { induction n as [|n IH].
    - right. intros j Hj. lia.
    - destruct IH as [(i & Hi & Hc & Hb) | Hnone].
      + left. exists i. split; [lia|]. split; assumption.
      + destruct (crossing buf (S n)) eqn:E.
        * left. exists (S n). split; [lia|]. split; [exact E|].
          intros j Hj. apply Hnone. lia.
        * right. intros j Hj. destruct (Nat.eq_dec j (S n)) as [->|Hne]; [exact E|].
          apply Hnone. lia. }
  exact (G (REC_BUFFER_SIZE - 2)%nat).
Qed.

(** C3 (as amended): in a pass whose RMS exceeds the squelch threshold,
    with trigger lock enabled the offset becomes the smallest index [i]
    in [1 .. N-2] with [sample[i-1] < 0] and [sample[i] >= 0], and keeps
    its previous value when there is none; with trigger lock disabled it
    becomes 0.  In a pass at or below the threshold the offset keeps its
    previous value, whatever the lock flag and the buffer. *)
Theorem trigger_offset_update (s : AppState) (trigger_offset : Z) :
  (squelch_threshold s < rms_of (rec_buffer s) ->
     (trigger_lock_on s = true ->
        (forall i, first_crossing (rec_buffer s) i ->
                   snd (analysis_cycle s trigger_offset) = Z.of_nat i) /\
        (no_crossing (rec_buffer s) ->
         snd (analysis_cycle s trigger_offset) = trigger_offset)) /\
     (trigger_lock_on s = false -> snd (analysis_cycle s trigger_offset) = 0%Z))
  /\ (rms_of (rec_buffer s) <= squelch_threshold s ->
      snd (analysis_cycle s trigger_offset) = trigger_offset).
Proof.
  split.
  - intros Hloud. rewrite analysis_cycle_loud_offset by exact Hloud. split.
    + intros ->. unfold trigger_scan. split.
      * intros i (Hr & Hc & Hb). apply scan_crossing_first; [lia | exact Hc | exact Hb].
      * intros Hnone. apply scan_crossing_none. intros j Hj. apply Hnone. lia.
    + intros ->. reflexivity.
  - intros Hq. rewrite analysis_cycle_quiet by exact Hq. reflexivity.
Qed.

Lemma first_crossing_loud_block : first_crossing loud_block 7.
Proof.
  split; [unfold REC_BUFFER_SIZE; lia|]. split; [vm_compute; reflexivity|].
  intros j Hj.
  assert (Hcases : j = 1%nat \/ j = 2%nat \/ j = 3%nat \/ j = 4%nat \/ j = 5%nat \/ j = 6%nat)
    by lia.
  destruct Hcases as [->|[->|[->|[->|[->| ->]]]]]; vm_compute; reflexivity.
Qed.

Lemma loud_block_is_loud :
  squelch_threshold (set_rec_buffer loud_block AppState_init)
  < rms_of (rec_buffer (set_rec_buffer loud_block AppState_init)).
Proof.
  cbn [rec_buffer squelch_threshold set_rec_buffer AppState_init].
  rewrite rms_of_loud_block. lra.
Qed.

Lemma trigger_offset_update_witness :
  snd (analysis_cycle (set_rec_buffer loud_block AppState_init) 0) = 7%Z.
Proof.
  apply (proj1 (proj1 (proj1 (trigger_offset_update
                                (set_rec_buffer loud_block AppState_init) 0)
                         loud_block_is_loud) eq_refl) 7%nat).
  exact first_crossing_loud_block.
Defined.

Lemma loud_pass_input :
  is_paused (recording_callback loud_block fresh_state) = false
  /\ trigger_lock_on (recording_callback loud_block fresh_state) = true
  /\ squelch_threshold (recording_callback loud_block fresh_state) = 500.0
  /\ rec_buffer (recording_callback loud_block fresh_state) = loud_block.
Proof.
  destruct (recording_callback_frame loud_block fresh_state) as (-> & -> & -> & _).
  repeat split; reflexivity.
Qed.

Lemma after_loud_pass_offset : snd after_loud_pass = 7%Z.
Proof.
  destruct loud_pass_input as (_ & Hlock & Hthr & Hbuf).
  unfold after_loud_pass. rewrite analysis_cycle_loud_offset.
  - rewrite Hlock, Hbuf. unfold trigger_scan.
    destruct first_crossing_loud_block as (Hr & Hc & Hb).
    apply (scan_crossing_first loud_block _ 1 0%Z 7); [lia | exact Hc | exact Hb].
  - rewrite Hthr, Hbuf, rms_of_loud_block. lra.
Qed.

Lemma unlocked_silent_input :
  trigger_lock_on unlocked_silent = false
  /\ squelch_threshold unlocked_silent = 500.0
  /\ rec_buffer unlocked_silent = silence.
Proof.
  destruct loud_pass_input as (Hp & Hlock & Hthr & Hbuf).
  destruct (analysis_cycle_frame (recording_callback loud_block fresh_state) 0)
    as (_ & Hp' & Hl' & _ & Hb' & Ht' & _).
  fold after_loud_pass in Hp', Hl', Hb', Ht'.
  unfold unlocked_silent.
  destruct (recording_callback_frame silence (handle_key SDLK_t (fst after_loud_pass)))
    as (_ & -> & -> & _).
  cbn [handle_key trigger_lock_on squelch_threshold set_trigger_lock_on].
  rewrite Hl', Hlock, Ht', Hthr. repeat split.
  rewrite recording_callback_buffer
    by (cbn [handle_key is_paused set_trigger_lock_on]; rewrite Hp'; exact Hp).
  cbn [handle_key rec_buffer set_trigger_lock_on]. rewrite Hb', Hbuf.
  vm_compute. reflexivity.
Qed.

(** C3 (as stated) fails: a loud block analysed with the lock on leaves
    the offset at 7; the user then disables the lock and silence arrives.
    The next pass is below the squelch threshold and leaves the offset at
    7, not 0, although trigger lock is disabled. *)
Lemma trigger_claim_counterexample :
  trigger_lock_on unlocked_silent = false
  /\ snd (analysis_cycle unlocked_silent (snd after_loud_pass)) = 7%Z
  /\ snd (analysis_cycle unlocked_silent (snd after_loud_pass)) <> 0%Z.
Proof.
  destruct unlocked_silent_input as (Hl & Ht & Hb).
  assert (E : snd (analysis_cycle unlocked_silent (snd after_loud_pass)) = 7%Z).
  { rewrite analysis_cycle_quiet.
    - exact after_loud_pass_offset.
    - rewrite Hb, Ht, rms_of_silence. lra. }
  repeat split; [exact Hl | exact E | rewrite E; discriminate].
Qed.

(** *** Peak search *)

Lemma ln_le_mono x y : 0 < x -> x <= y -> ln x <= ln y.
Proof.
  intros Hx [Hlt | ->]; [left; apply ln_increasing; assumption | right; reflexivity].
Qed.

Lemma ln_10_pos : 0 < ln 10.
Proof. rewrite <- ln_1. apply ln_increasing; lra. Qed.

Lemma log10_epsilon : log10 1e-9 = -9.
Proof.
  unfold log10. replace 1e-9 with (/ 10 ^ 9) by lra.
  rewrite ln_Rinv by (apply pow_lt; lra). rewrite ln_pow by lra.
  pose proof ln_10_pos. simpl INR. field. lra.
Qed.

(** Every bin is at least -180 dB, thanks to the [1e-9] added to the
    magnitude. *)
Lemma bin_db_lower fft_input i : -180 <= bin_db fft_input i.
Proof.
  unfold bin_db.
  set (c := nth i fft_input C0).
  pose proof (sqrt_pos (real c * real c + imag c * imag c)) as Hm.
  assert (H : log10 1e-9 <= log10 (sqrt (real c * real c + imag c * imag c) + 1e-9)).
  { unfold log10. apply Rmult_le_compat_r.
    - left. apply Rinv_0_lt_compat. exact ln_10_pos.
    - apply ln_le_mono; lra. }
  rewrite log10_epsilon in H. lra.
Qed.

Lemma peak_step_max fft_input i st :
  max_db (peak_step fft_input i st)
  = (if Rlt_dec (max_db st) (bin_db fft_input i) then bin_db fft_input i else max_db st)
  /\ peak_index (peak_step fft_input i st)
     = (if Rlt_dec (max_db st) (bin_db fft_input i) then i else peak_index st).
Proof.
  unfold peak_step.
  destruct (Rlt_dec (max_db st) (bin_db fft_input i)); cbn [hold max_db peak_index];
    match goal with |- context [Rlt_dec ?a ?b] => destruct (Rlt_dec a b) end;
    split; reflexivity.
Qed.

(** The search returns the first bin of maximal level among bins
    [1 .. N/2 - 1]. *)
Lemma peak_search_argmax fft_input peak_hold :
  let found := peak_search fft_input peak_hold in
  (1 <= peak_index found < REC_BUFFER_SIZE / 2)%nat
  /\ max_db found = bin_db fft_input (peak_index found)
  /\ (forall j, (1 <= j < REC_BUFFER_SIZE / 2)%nat -> bin_db fft_input j <= max_db found)
  /\ (forall j, (1 <= j < peak_index found)%nat -> bin_db fft_input j < max_db found).
Proof.
  intros found. subst found. unfold peak_search.
  assert (Hhalf : (1 < REC_BUFFER_SIZE / 2)%nat).
  { apply Nat.div_le_lower_bound; unfold REC_BUFFER_SIZE; lia. }
  pose proof (for_loop_ind (fun m st =>
      (m = 1%nat -> max_db st = -1000 /\ peak_index st = 0%nat) /\
      ((1 < m)%nat ->
         (1 <= peak_index st < m)%nat /\
         max_db st = bin_db fft_input (peak_index st) /\
         (forall j, (1 <= j < m)%nat -> bin_db fft_input j <= max_db st) /\
         (forall j, (1 <= j < peak_index st)%nat -> bin_db fft_input j < max_db st)))
    1 (REC_BUFFER_SIZE / 2) (peak_step fft_input)
    (mkPeakSearch (-1000.0) 0 peak_hold)) as Ind.
  apply Ind; [lia | | | exact Hhalf].
  - split; [intros _; cbn [max_db peak_index]; split; [lra | reflexivity] | lia].
  - intros i st Hi [Hfirst Hrest].
    destruct (peak_step_max fft_input i st) as [Em Ep].
    pose proof (bin_db_lower fft_input i) as Hlow.
    split; [lia|]. intros _. rewrite Em, Ep.
    destruct (Nat.eq_dec i 1) as [->|Hne].
    + destruct (Hfirst eq_refl) as [H0 _].
      destruct (Rlt_dec (max_db st) (bin_db fft_input 1)); [|lra].
      split; [lia|]. split; [reflexivity|]. split.
      * intros j Hj. assert (j = 1%nat) by lia. subst. lra.
      * intros j Hj. lia.
    + destruct Hrest as (Hidx & Hmax & Hall & Hbefore); [lia|].
      destruct (Rlt_dec (max_db st) (bin_db fft_input i)) as [Hlt|Hge].
      * split; [lia|]. split; [reflexivity|]. split.
        -- intros j Hj. destruct (Nat.eq_dec j i) as [->|Hji]; [lra|].
           specialize (Hall j ltac:(lia)). lra.
        -- intros j Hj. specialize (Hall j ltac:(lia)). lra.
      * split; [lia|]. split; [exact Hmax|]. split.
        -- intros j Hj. destruct (Nat.eq_dec j i) as [->|Hji]; [lra|].
           apply Hall. lia.
        -- exact Hbefore.
Qed.

Lemma target_freq_of_positive p : (1 <= p)%nat -> 0 < target_freq_of p.
Proof.
  intros Hp. unfold target_freq_of, max_freq, SAMPLE_RATE.
  assert (H1 : 1 <= INR p) by (change 1 with (INR 1); apply le_INR; exact Hp).
  assert (H2 : 0 < INR REC_BUFFER_SIZE) by (apply lt_0_INR; unfold REC_BUFFER_SIZE; lia).
  apply Rmult_lt_0_compat; [|lra].
  apply Rdiv_lt_0_compat; [lra|]. apply Rdiv_lt_0_compat; lra.
Qed.

Lemma analysis_cycle_loud_frequency s off :
  squelch_threshold s < rms_of (rec_buffer s) ->
  frequency (peak_marker (fst (analysis_cycle s off)))
  = target_freq_of
      (peak_index (peak_search (fft (window (rec_buffer s)) REC_BUFFER_SIZE)
                               (peak_hold_magnitudes s))).
Proof.
  intros H. unfold analysis_cycle.
  destruct (Rlt_dec (squelch_threshold s) (rms_of (rec_buffer s))); [reflexivity | lra].
Qed.

(** C10: in a pass whose RMS exceeds the squelch threshold every bin is at
    least -180 dB, above the -1000 that [max_db] starts from, so the peak
    search over bins [1 .. N/2-1] returns [peak_index >= 1]; hence
    [target_freq > 0] (it is the frequency stored in the marker), the
    timebase takes the [4.0 * (SAMPLE_RATE / target_freq)] arm, never the
    2048 fallback, and the logarithm is taken of [target_freq] itself,
    never of the substitute 1.0. *)
Theorem peak_search_never_bin_zero (s : AppState) (trigger_offset : Z) :
  squelch_threshold s < rms_of (rec_buffer s) ->
  (forall i, -180 <= bin_db (fft (window (rec_buffer s)) REC_BUFFER_SIZE) i)
  /\ (1 <= peak_index (peak_search (fft (window (rec_buffer s)) REC_BUFFER_SIZE)
                                   (peak_hold_magnitudes s))
      < REC_BUFFER_SIZE / 2)%nat
  /\ -180 <= max_db (peak_search (fft (window (rec_buffer s)) REC_BUFFER_SIZE)
                                 (peak_hold_magnitudes s))
  /\ 0 < frequency (peak_marker (fst (analysis_cycle s trigger_offset)))
  /\ frequency (peak_marker (fst (analysis_cycle s trigger_offset)))
     = target_freq_of
         (peak_index (peak_search (fft (window (rec_buffer s)) REC_BUFFER_SIZE)
                                  (peak_hold_magnitudes s)))
  /\ target_samples_of (frequency (peak_marker (fst (analysis_cycle s trigger_offset))))
     = clamp_samples
         (trunc (4.0 * (IZR SAMPLE_RATE
                        / frequency (peak_marker (fst (analysis_cycle s trigger_offset))))))
  /\ log_peak_freq_of (frequency (peak_marker (fst (analysis_cycle s trigger_offset))))
     = log10 (frequency (peak_marker (fst (analysis_cycle s trigger_offset)))).
Proof.
  intros Hloud.
  rewrite analysis_cycle_loud_frequency by exact Hloud.
  set (fft_input := fft (window (rec_buffer s)) REC_BUFFER_SIZE).
  destruct (peak_search_argmax fft_input (peak_hold_magnitudes s)) as (Hidx & Hmax & _ & _).
  set (found := peak_search fft_input (peak_hold_magnitudes s)) in *.
  assert (Hpos : 0 < target_freq_of (peak_index found))
    by (apply target_freq_of_positive; lia).
  split; [intros i; apply bin_db_lower|].
  split; [exact Hidx|].
  split; [rewrite Hmax; apply bin_db_lower|].
  split; [exact Hpos|].
  split; [reflexivity|].
  unfold target_samples_of, log_peak_freq_of.
  destruct (Rlt_dec 0 (target_freq_of (peak_index found))); [|contradiction].
  split; reflexivity.
Qed.

Lemma peak_search_never_bin_zero_witness :
  (forall i, -180 <= bin_db (fft (window (rec_buffer (set_rec_buffer loud_block AppState_init)))
                                 REC_BUFFER_SIZE) i)
  /\ (1 <= peak_index
             (peak_search
                (fft (window (rec_buffer (set_rec_buffer loud_block AppState_init)))
                     REC_BUFFER_SIZE)
                (peak_hold_magnitudes (set_rec_buffer loud_block AppState_init)))
      < REC_BUFFER_SIZE / 2)%nat
  /\ 0 < frequency (peak_marker
                      (fst (analysis_cycle (set_rec_buffer loud_block AppState_init) 0))).
Proof.
  pose proof (peak_search_never_bin_zero (set_rec_buffer loud_block AppState_init) 0
                loud_block_is_loud) as (H1 & H2 & _ & H4 & _).
  exact (conj H1 (conj H2 H4)).
Defined.

(** ** The control surface *)

Lemma decrement_clamped_floor x step low : low <= decrement_clamped x step low.
Proof. unfold decrement_clamped. destruct (Rlt_dec (x - step) low); lra. Qed.

Lemma decrement_clamped_Rmax x step low :
  decrement_clamped x step low = Rmax (x - step) low.
Proof.
  unfold decrement_clamped, Rmax.
  destruct (Rlt_dec (x - step) low); destruct (Rle_dec (x - step) low); lra.
Qed.

Lemma handle_key_in_range k s : controls_in_range s -> controls_in_range (handle_key k s).
Proof.
  intros (H1 & H2 & H3).
  destruct k; unfold controls_in_range, reset_peak_hold; simpl;
    repeat split; try assumption; try lra;
    apply decrement_clamped_floor.
Qed.

Lemma main_step_in_range e st :
  controls_in_range (fst st) -> controls_in_range (fst (main_step e st)).
Proof.
  intros H. destruct e as [k | | stream |]; cbn [main_step fst].
  - apply handle_key_in_range. exact H.
  - exact H.
  - unfold recording_callback. destruct (is_paused (fst st)); exact H.
  - unfold main_analysis. destruct (is_paused (fst st)); [exact H|].
    destruct (analysis_cycle_frame (fst st) (snd st)) as (_ & _ & _ & _ & _ & E1 & E2 & E3 & _).
    destruct H as (H1 & H2 & H3).
    unfold controls_in_range. rewrite E1, E2, E3. repeat split; assumption.
Qed.

Lemma main_run_in_range events : forall st,
  controls_in_range (fst st) -> controls_in_range (fst (main_run events st)).
Proof.
  induction events as [|e events IH]; intros st H; [exact H|].
  apply IH. apply main_step_in_range. exact H.
Qed.

Lemma handle_keys_in_range keys : forall s,
  controls_in_range s -> controls_in_range (handle_keys keys s).
Proof.
  induction keys as [|k keys IH]; intros s H; [exact H|].
  apply IH. apply handle_key_in_range. exact H.
Qed.

Lemma AppState_init_in_range : controls_in_range AppState_init.
Proof. unfold controls_in_range. cbn [squelch_threshold visual_gain scope_gain AppState_init]. lra. Qed.

(** C9: after any sequence of key presses from the initial state, and
    also when captures, clicks and analysis passes come in between,
    [squelch_threshold >= 0], [visual_gain >= 0] and [scope_gain >= 0.1];
    a decrement is applied and then clamped to the bound at once (the new
    value is the larger of the decremented value and the bound), an
    increment is applied as it is, and every key yields a new state: none
    is refused. *)
Theorem controls_always_in_range :
  (forall keys, controls_in_range (handle_keys keys AppState_init))
  /\ (forall events, controls_in_range (fst (main_run events (fresh_state, 0%Z))))
  /\ (forall s,
        scope_gain (handle_key SDLK_s s) = Rmax (scope_gain s - 0.2) 0.1
        /\ squelch_threshold (handle_key SDLK_DOWN s) = Rmax (squelch_threshold s - 50) 0
        /\ visual_gain (handle_key SDLK_LEFT s) = Rmax (visual_gain s - 0.05) 0)
  /\ (forall s,
        scope_gain (handle_key SDLK_w s) = scope_gain s + 0.2
        /\ squelch_threshold (handle_key SDLK_UP s) = squelch_threshold s + 50
        /\ visual_gain (handle_key SDLK_RIGHT s) = visual_gain s + 0.05).
Proof.
  split; [intros keys; apply handle_keys_in_range, AppState_init_in_range|].
  split.
  - intros events. apply main_run_in_range. cbn [fst].
    apply (handle_key_in_range SDLK_r AppState_init AppState_init_in_range).
  - split; intros s; cbn [handle_key scope_gain squelch_threshold visual_gain
                            set_scope_gain set_squelch_threshold set_visual_gain];
      rewrite ?decrement_clamped_Rmax; repeat split; reflexivity.
Qed.

(** ** The generator: sweep state *)

(** The sweep fields of the next state depend on the sweep fields only:
    neither the phase nor the waveform kind feeds back into them. *)
Lemma sample_step_sweep g g' :
  sweep_state g = sweep_state g' -> sweep_state (sample_step g) = sweep_state (sample_step g').
Proof.
  unfold sweep_state. intros H. injection H as Hp Ht Hu Hf.
  unfold sample_step, sweep_step. rewrite Hp, Ht, Hu.
  destruct (gen_is_paused g') eqn:Hp';
    cbn [set_phase gen_is_paused sweep_time sweep_up current_freq].
  - rewrite Hp, Hp', Ht, Hu, Hf. reflexivity.
  - destruct (PrimFloat.leb sweep_duration_s
                (PrimFloat.add (sweep_time g') (PrimFloat.div 1 SAMPLE_RATE_double)));
      cbn [gen_is_paused sweep_time sweep_up current_freq]; rewrite ?Hp, ?Hp'; reflexivity.
Qed.

Lemma run_samples_succ n g : run_samples (N.succ n) g = sample_step (run_samples n g).
Proof. unfold run_samples. apply N.iter_succ. Qed.

Lemma run_samples_sweep n g g' :
  sweep_state g = sweep_state g' ->
  sweep_state (run_samples n g) = sweep_state (run_samples n g').
Proof.
  intros H. induction n as [|n IH] using N.peano_ind; [exact H|].
  rewrite !run_samples_succ. apply sample_step_sweep. exact IH.
Qed.

Lemma run_samples_add n m g : run_samples (n + m) g = run_samples m (run_samples n g).
Proof.
  unfold run_samples. rewrite N.add_comm. apply N.iter_add.
Qed.

Lemma playback_callback_sweep len g :
  sweep_state (playback_callback len g) = sweep_state (run_samples (Z.to_N (len ÷ 2)) g).
Proof.
  unfold playback_callback.
  destruct (PrimFloat.ltb _ _); reflexivity.
Qed.

(** However the playback device cuts the stream into blocks, the sweep
    is where the same number of single samples would have taken it. *)
Lemma playback_blocks_sweep lens : forall g,
  sweep_state (playback_blocks lens g) = sweep_state (run_samples (samples_in lens) g).
Proof.
  unfold playback_blocks, samples_in.
  assert (G : forall n g g0,
             sweep_state g = sweep_state (run_samples n g0) ->
             sweep_state (fold_left (fun acc len => playback_callback len acc) lens g)
             = sweep_state (run_samples
                              (fold_left (fun acc len => (acc + Z.to_N (len ÷ 2))%N) lens n) g0)).
  { induction lens as [|len lens IH]; intros n g g0 H; [exact H|].
    cbn [fold_left]. apply IH.
    rewrite playback_callback_sweep, run_samples_add.
    apply run_samples_sweep. exact H. }
  intros g. apply (G 0%N g g). reflexivity.
Qed.

Lemma sweep_at_882000 :
  sweep_state (run_samples 882000 generator_init)
  = (false, 19.999999999697696%float, true, 4999.9943536662231%float).
Proof. vm_compute. reflexivity. Qed.

Lemma sweep_at_882001 :
  sweep_state (run_samples 882001 generator_init)
  = (false, 0%float, false, 4999.9999999247257%float).
Proof. vm_compute. reflexivity. Qed.

Lemma sweep_at_882002 :
  sweep_state (run_samples 882002 generator_init)
  = (false, 2.2675736961451248e-05%float, false, 5000%float).
Proof. vm_compute. reflexivity. Qed.

Lemma sweep_at_1764000 :
  sweep_state (run_samples 1764000 generator_init)
  = (false, 19.999977323960735%float, false, 20.01129259228037%float).
Proof. vm_compute. reflexivity. Qed.

Lemma sweep_at_1764002 :
  sweep_state (run_samples 1764002 generator_init)
  = (false, 0%float, true, 20.000000075274329%float).
Proof. vm_compute. reflexivity. Qed.

Lemma sweep_at_1764003 :
  sweep_state (run_samples 1764003 generator_init)
  = (false, 2.2675736961451248e-05%float, true, 20%float).
Proof. vm_compute. reflexivity. Qed.

(** C4 (as amended): from the initial generator state (ascending, elapsed
    time 0, 20 Hz, not paused), after exactly 882000 samples the elapsed
    time has accumulated to 19.999999999697696, below 20.0, so the sweep
    is still ascending and [current_freq] is 4999.9943536662231, the value
    computed from the elapsed time before the last increment.  Sample
    882001 flips the direction to descending and resets the elapsed time;
    after sample 882002 [current_freq] is exactly 5000.  The way down
    takes 882001 samples as well: after 1764000 samples [current_freq] is
    20.01129259228037, after 1764002 the sweep ascends again, and after
    1764003 [current_freq] is exactly 20. *)
Theorem sweep_round_trip :
  sweep_state (run_samples 882000 generator_init)
  = (false, 19.999999999697696%float, true, 4999.9943536662231%float)
  /\ sweep_state (run_samples 882001 generator_init)
     = (false, 0%float, false, 4999.9999999247257%float)
  /\ sweep_state (run_samples 882002 generator_init)
     = (false, 2.2675736961451248e-05%float, false, 5000%float)
  /\ sweep_state (run_samples 1764000 generator_init)
     = (false, 19.999977323960735%float, false, 20.01129259228037%float)
  /\ sweep_state (run_samples 1764002 generator_init)
     = (false, 0%float, true, 20.000000075274329%float)
  /\ sweep_state (run_samples 1764003 generator_init)
     = (false, 2.2675736961451248e-05%float, true, 20%float).
Proof.
  exact (conj sweep_at_882000 (conj sweep_at_882001 (conj sweep_at_882002
          (conj sweep_at_1764000 (conj sweep_at_1764002 sweep_at_1764003))))).
Qed.

Lemma freq_at_882000_below :
  PrimFloat.ltb (current_freq (run_samples 882000 generator_init)) 5000%float = true.
Proof. vm_compute. reflexivity. Qed.

Lemma direction_at_882000 : sweep_up (run_samples 882000 generator_init) = true.
Proof. vm_compute. reflexivity. Qed.

Lemma freq_at_1764000_above :
  PrimFloat.ltb 20%float (current_freq (run_samples 1764000 generator_init)) = true.
Proof. vm_compute. reflexivity. Qed.

(** C4 (as stated) fails: after exactly 882000 samples [current_freq] is
    below 5000 and the sweep has not flipped to descending, and after
    another 882000 samples [current_freq] is above 20. *)
Lemma sweep_claim_counterexample :
  current_freq (run_samples 882000 generator_init) <> 5000%float
  /\ sweep_up (run_samples 882000 generator_init) <> false
  /\ current_freq (run_samples (882000 + 882000) generator_init) <> 20%float.
Proof.
  split; [|split]; intros H.
  - pose proof freq_at_882000_below as E. rewrite H in E.
    vm_compute in E. discriminate E.
  - pose proof direction_at_882000 as E. rewrite H in E. discriminate E.
  - pose proof freq_at_1764000_above as E.
    change (882000 + 882000)%N with 1764000%N in H. rewrite H in E.
    vm_compute in E. discriminate E.
Qed.

(** ** The generator: waveforms and output samples *)

Lemma M_PI_pos : 0 < M_PI.
Proof. exact PI_RGT_0. Qed.

Lemma sample_value_range w phase : 0 <= phase -> -1 <= sample_value w phase <= 1.
Proof.
  intros Hphase. pose proof M_PI_pos as Hpi.
  destruct w; unfold sample_value.
  - pose proof (SIN_bound phase). lra.
  - destruct (Rle_dec 0 (sin phase)); lra.
  - pose proof (fmod_range phase (2.0 * M_PI) Hphase ltac:(lra)) as [F1 F2].
    assert (0 <= fmod phase (2.0 * M_PI) / M_PI < 2).
    { split.
      - apply Rmult_le_pos; [exact F1 | left; apply Rinv_0_lt_compat; exact Hpi].
      - apply Rmult_lt_reg_r with M_PI; [exact Hpi|].
        replace (fmod phase (2.0 * M_PI) / M_PI * M_PI)
          with (fmod phase (2.0 * M_PI)) by (field; lra).
        lra. }
    lra.
  - assert (Hq : 0 <= phase / (2.0 * M_PI))
      by (apply Rmult_le_pos; [exact Hphase | left; apply Rinv_0_lt_compat; lra]).
    pose proof (fmod_range (phase / (2.0 * M_PI)) 1.0 Hq ltac:(lra)) as [F1 F2].
    unfold fabs.
    assert (Rabs (fmod (phase / (2.0 * M_PI)) 1.0 * 2.0 - 1.0) <= 1)
      by (apply Rabs_le; lra).
    pose proof (Rabs_pos (fmod (phase / (2.0 * M_PI)) 1.0 * 2.0 - 1.0)).
    lra.
Qed.

(** C6: for every phase [>= 0] and each of the four waveform kinds the
    value before scaling lies in [[-1, 1]]; the square wave is exactly 1
    or exactly -1. *)
Theorem sample_value_bounds (w : WaveformType) (phase : R) :
  0 <= phase ->
  -1 <= sample_value w phase <= 1
  /\ (w = WAVE_SQUARE -> sample_value w phase = 1 \/ sample_value w phase = -1).
Proof.
  intros Hphase. split; [apply sample_value_range; exact Hphase|].
  intros ->. unfold sample_value. destruct (Rle_dec 0 (sin phase)); [left | right]; lra.
Qed.

Lemma sample_value_bounds_witness :
  -1 <= sample_value WAVE_TRIANGLE 0 <= 1
  /\ (WAVE_TRIANGLE = WAVE_SQUARE ->
      sample_value WAVE_TRIANGLE 0 = 1 \/ sample_value WAVE_TRIANGLE 0 = -1).
Proof. apply (sample_value_bounds WAVE_TRIANGLE 0). lra. Defined.

Lemma cast_range_in lo hi d :
  (lo <= trunc d <= hi)%Z -> cast_range lo hi d = Some (trunc d).
Proof.
  intros [H1 H2]. unfold cast_range.
  apply Z.leb_le in H1. apply Z.leb_le in H2. rewrite H1, H2. reflexivity.
Qed.

Lemma scaled_sample_range w phase :
  0 <= phase -> (-12000 <= trunc (12000 * sample_value w phase) <= 12000)%Z.
Proof.
  intros Hphase. destruct (sample_value_range w phase Hphase) as [B1 B2].
  destruct (trunc_error (12000 * sample_value w phase)) as [_ E].
  assert (Hv : Rabs (12000 * sample_value w phase) <= 12000) by (apply Rabs_le; lra).
  assert (Ht : Rabs (IZR (trunc (12000 * sample_value w phase))) <= 12000) by lra.
  pose proof (Rle_abs (IZR (trunc (12000 * sample_value w phase)))) as T2.
  pose proof (Rle_abs (- IZR (trunc (12000 * sample_value w phase)))) as T1.
  rewrite Rabs_Ropp in T1.
  split; apply le_IZR; lra.
Qed.

(** C5 (as amended): the 16-bit sample written is [12000 * v] with its
    fractional part discarded (truncation toward zero, not rounding to
    the nearest integer), where [v] is the waveform value for the current
    phase and kind; it differs from [12000 * v] by less than 1, and it
    lies in [[-12000, 12000]], inside the 16-bit range
    [[-32768, 32767]], so no sample clips. *)
Theorem output_sample_truncates (w : WaveformType) (phase : R) :
  0 <= phase ->
  output_sample w phase = Some (trunc (12000 * sample_value w phase))
  /\ Rabs (IZR (trunc (12000 * sample_value w phase)) - 12000 * sample_value w phase) < 1
  /\ (-12000 <= trunc (12000 * sample_value w phase) <= 12000)%Z
  /\ (SINT16_MIN < -12000)%Z /\ (12000 < SINT16_MAX)%Z.
Proof.
  intros Hphase. pose proof (scaled_sample_range w phase Hphase) as Hr.
  split.
  - unfold output_sample, cast_Sint16. apply cast_range_in.
    unfold SINT16_MIN, SINT16_MAX. lia.
  - split; [apply trunc_error|]. split; [exact Hr|].
    unfold SINT16_MIN, SINT16_MAX. lia.
Qed.

Lemma output_sample_truncates_witness :
  output_sample WAVE_SQUARE 0 = Some (trunc (12000 * sample_value WAVE_SQUARE 0))
  /\ Rabs (IZR (trunc (12000 * sample_value WAVE_SQUARE 0))
           - 12000 * sample_value WAVE_SQUARE 0) < 1
  /\ (-12000 <= trunc (12000 * sample_value WAVE_SQUARE 0) <= 12000)%Z
  /\ (SINT16_MIN < -12000)%Z /\ (12000 < SINT16_MAX)%Z.
Proof. apply (output_sample_truncates WAVE_SQUARE 0). lra. Defined.

Lemma sawtooth_at_counterexample_phase :
  12000 * sample_value WAVE_SAWTOOTH (M_PI * (1 + 1 / 16000)) = 0.75.
Proof.
  pose proof M_PI_pos as Hpi. unfold sample_value.
  rewrite fmod_small by (split; nra).
  replace (M_PI * (1 + 1 / 16000) / M_PI) with (1 + 1 / 16000) by (field; lra).
  lra.
Qed.

(** C5 (as stated) fails: for the sawtooth at phase [pi * (1 + 1/16000)]
    the value before conversion is [12000 * v = 0.75]; the sample written
    is 0, while rounding gives 1. *)
Lemma output_sample_claim_counterexample :
  0 <= M_PI * (1 + 1 / 16000)
  /\ output_sample WAVE_SAWTOOTH (M_PI * (1 + 1 / 16000)) = Some 0%Z
  /\ round (12000 * sample_value WAVE_SAWTOOTH (M_PI * (1 + 1 / 16000))) = 1%Z.
Proof.
  pose proof M_PI_pos as Hpi.
  split; [nra|]. split.
  - unfold output_sample, cast_Sint16, cast_range.
    rewrite sawtooth_at_counterexample_phase.
    rewrite (trunc_unique_nonneg 0.75 0) by (simpl; lra). reflexivity.
  - rewrite sawtooth_at_counterexample_phase. unfold round.
    destruct (Rle_dec 0 0.75); [|lra].
    apply Int_part_unique. simpl. lra.
Qed.

(** ** freq_to_note *)

Lemma ln_2_pos : 0 < ln 2.
Proof. pose proof ln_lt_2. lra. Qed.

Lemma log2_1 : log2 1 = 0.
Proof. unfold log2. rewrite ln_1. pose proof ln_2_pos. field. lra. Qed.

Lemma log2_inv_pow2 n : log2 (/ 2 ^ n) = - INR n.
Proof.
  unfold log2. rewrite ln_Rinv by (apply pow_lt; lra). rewrite ln_pow by lra.
  pose proof ln_2_pos. field. lra.
Qed.

Lemma cast_int_IZR z : (INT_MIN <= z <= INT_MAX)%Z -> cast_int (IZR z) = Some z.
Proof.
  intros H. unfold cast_int. rewrite cast_range_in; rewrite trunc_IZR; [reflexivity | exact H].
Qed.

Lemma freq_to_note_silent frequency :
  frequency <= 0 -> freq_to_note frequency 16 = Some "---"%string.
Proof.
  intros H. unfold freq_to_note. destruct (Rle_dec frequency 0); [reflexivity | contradiction].
Qed.

(** Where the note number is not negative the name is the table entry at
    [note_number mod 12] followed by the octave [note_number / 12 - 1]. *)
Lemma freq_to_note_named frequency :
  0 < frequency ->
  (0 <= round (12 * log2 (frequency / 440.0) + 69) <= INT_MAX)%Z ->
  freq_to_note frequency 16
  = Some (snprintf 16
            (nth (Z.to_nat (round (12 * log2 (frequency / 440.0) + 69) mod 12))
                 note_names ""%string
             ++ print_int (round (12 * log2 (frequency / 440.0) + 69) / 12 - 1))).
Proof.
  intros Hf Hn. unfold freq_to_note.
  destruct (Rle_dec frequency 0); [lra|].
  set (note_num := round (12 * log2 (frequency / 440.0) + 69)) in *.
  rewrite cast_int_IZR by (unfold INT_MIN; lia).
  rewrite Z.rem_mod_nonneg by lia. rewrite Z.quot_div_nonneg by lia.
  pose proof (Z.mod_pos_bound note_num 12 ltac:(lia)) as [M1 M2].
  apply Z.leb_le in M1. apply Z.ltb_lt in M2. rewrite M1, M2. reflexivity.
Qed.

Lemma freq_to_note_A4 : freq_to_note 440.0 16 = Some "A4"%string.
Proof.
  assert (E : round (12 * log2 (440.0 / 440.0) + 69) = 69%Z).
  { replace (440.0 / 440.0) with 1 by lra. rewrite log2_1.
    replace (12 * 0 + 69) with (IZR 69) by lra. apply round_IZR. }
  rewrite freq_to_note_named; [| lra | rewrite E; unfold INT_MAX; lia].
  rewrite E. reflexivity.
Qed.

Lemma note_number_of_6_875 : round (12 * log2 (6.875 / 440.0) + 69) = (-3)%Z.
Proof.
  replace (6.875 / 440.0) with (/ 2 ^ 6) by lra. rewrite log2_inv_pow2.
  replace (12 * - INR 6 + 69) with (IZR (-3)) by (simpl; lra). apply round_IZR.
Qed.

(** C8, the defect: 6.875 Hz is A, six octaves below 440 Hz; its note
    number is -3, the C remainder [-3 % 12] is -3, and the name is read
    from [note_names[-3]], outside the table. *)
Theorem freq_to_note_negative_note :
  0 < 6.875
  /\ round (12 * log2 (6.875 / 440.0) + 69) = (-3)%Z
  /\ Z.rem (-3) 12 = (-3)%Z
  /\ freq_to_note 6.875 16 = None.
Proof.
  split; [lra|]. split; [exact note_number_of_6_875|]. split; [reflexivity|].
  unfold freq_to_note. destruct (Rle_dec 6.875 0); [lra|].
  rewrite note_number_of_6_875.
  rewrite cast_int_IZR by (unfold INT_MIN, INT_MAX; lia). reflexivity.
Qed.

(** Elsewhere the function does what its callers expect: the sentinel
    for [frequency <= 0], the named note wherever the note number is not
    negative, and A4 for 440 Hz. *)
Lemma freq_to_note_elsewhere :
  (forall frequency, frequency <= 0 -> freq_to_note frequency 16 = Some "---"%string)
  /\ (forall frequency,
        0 < frequency ->
        (0 <= round (12 * log2 (frequency / 440.0) + 69) <= INT_MAX)%Z ->
        freq_to_note frequency 16
        = Some (snprintf 16
                  (nth (Z.to_nat (round (12 * log2 (frequency / 440.0) + 69) mod 12))
                       note_names ""%string
                   ++ print_int (round (12 * log2 (frequency / 440.0) + 69) / 12 - 1))))
  /\ freq_to_note 440.0 16 = Some "A4"%string.
Proof.
  split; [exact freq_to_note_silent|]. split; [exact freq_to_note_named|].
  exact freq_to_note_A4.
Qed.

Lemma round_nonneg_bounds d : 0 <= d -> (0 <= round d)%Z /\ IZR (round d) <= d + / 2.
Proof.
  intros H. unfold round. destruct (Rle_dec 0 d); [|contradiction].
  pose proof (Int_part_bounds (d + / 2)) as [B1 B2]. split; [|exact B1].
  apply Z.lt_succ_r, lt_IZR. rewrite succ_IZR. simpl. lra.
Qed.

Lemma log2_lower x : 0 < x -> / 2 ^ 23 <= x ^ 4 -> -5.75 <= log2 x.
Proof.
  intros Hx H. pose proof ln_2_pos as H2.
  assert (L : ln (/ 2 ^ 23) <= ln (x ^ 4)).
  { apply ln_le_mono; [apply Rinv_0_lt_compat, pow_lt; lra | exact H]. }
  rewrite ln_Rinv in L by (apply pow_lt; lra).
  rewrite !ln_pow in L by lra. simpl INR in L.
  unfold log2. apply Rmult_le_reg_r with (ln 2); [exact H2|].
  replace (ln x / ln 2 * ln 2) with (ln x) by (field; lra). lra.
Qed.

Lemma log2_upper x : 0 < x -> x <= 2 ^ 6 -> log2 x <= 6.
Proof.
  intros Hx H. pose proof ln_2_pos as H2.
  assert (L : ln x <= ln (2 ^ 6)) by (apply ln_le_mono; assumption).
  rewrite ln_pow in L by lra. simpl INR in L.
  unfold log2. apply Rmult_le_reg_r with (ln 2); [exact H2|].
  replace (ln x / ln 2 * ln 2) with (ln x) by (field; lra). lra.
Qed.

(** Every frequency that the analysis pass can store in the marker, the
    centre of a bin in [1 .. N/2 - 1], has a note number between 0 and
    141: [main] never reaches the read outside [note_names]. *)
Lemma analysis_frequencies_named p :
  (1 <= p < REC_BUFFER_SIZE / 2)%nat ->
  0 < target_freq_of p
  /\ (0 <= round (12 * log2 (target_freq_of p / 440.0) + 69) <= 141)%Z.
Proof.
  intros [Hp1 Hp2].
  assert (Hpos : 0 < target_freq_of p) by (apply target_freq_of_positive; exact Hp1).
  split; [exact Hpos|].
  assert (E : target_freq_of p / 440.0 = INR p * (22050 / 2048 / 440)).
  { unfold target_freq_of, max_freq, SAMPLE_RATE.
    replace (INR REC_BUFFER_SIZE) with 4096
      by (unfold REC_BUFFER_SIZE; rewrite INR_IZR_INZ; reflexivity).
    lra. }
  assert (H1 : 1 <= INR p) by (change 1 with (INR 1); apply le_INR; exact Hp1).
  assert (H2 : INR p <= 2048).
  { replace 2048 with (INR (REC_BUFFER_SIZE / 2))
      by (rewrite INR_IZR_INZ; vm_compute; reflexivity).
    apply le_INR. lia. }
  set (x := target_freq_of p / 440.0) in *.
  assert (Hx : 0 < x) by (rewrite E; nra).
  assert (Hlow : -5.75 <= log2 x).
  { apply log2_lower; [exact Hx|].
    apply Rle_trans with ((22050 / 2048 / 440) ^ 4); [lra|].
    apply pow_incr. rewrite E. split; nra. }
  assert (Hup : log2 x <= 6).
  { apply log2_upper; [exact Hx|]. rewrite E. simpl. nra. }
  destruct (round_nonneg_bounds (12 * log2 x + 69)) as [R1 R2]; [lra|].
  split; [exact R1|].
  apply Z.lt_succ_r, lt_IZR. rewrite succ_IZR. lra.
Qed.

(** * Part III: further properties of the code *)

(** ** fft beyond the transform identity *)

Lemma fft_cells_beyond_pairs x n j :
  (n / 2 + n / 2 <= length x)%nat -> (n / 2 + n / 2 <= j)%nat ->
  nth j (fft x n) C0 = nth j x C0.
Proof.
  intros Hlen Hj. destruct (le_lt_dec n 1) as [Hn|Hn].
  - rewrite fft_small by exact Hn. reflexivity.
  - rewrite fft_recursive_case by exact Hn.
    rewrite butterfly_loop_nth by exact Hlen.
    replace (j <? n / 2)%nat with false by (symmetry; apply Nat.ltb_ge; lia).
    replace (j <? n / 2 + n / 2)%nat with false by (symmetry; apply Nat.ltb_ge; lia).
    reflexivity.
Qed.

(** X1: with an odd length [n] the loops of [fft] pair up only the first
    [n - 1] cells: the last cell [x[n-1]] comes back unchanged, so the
    result is not a transform of the [n] samples. *)
Theorem fft_odd_length_last_cell (x : list Complex) (n : nat) :
  Nat.odd n = true ->
  (n <= length x)%nat ->
  nth (n - 1) (fft x n) C0 = nth (n - 1) x C0.
Proof.
  intros Hodd Hlen.
  apply Nat.odd_spec in Hodd. destruct Hodd as [h Hh].
  assert (Hdiv : (n / 2 = h)%nat).
  { subst n. rewrite Nat.add_comm, Nat.mul_comm. rewrite Nat.div_add by lia. reflexivity. }
  apply fft_cells_beyond_pairs; rewrite Hdiv; lia.
Qed.

Lemma fft_odd_length_last_cell_witness :
  nth (3 - 1) (fft [mkComplex 1 0; mkComplex 2 0; mkComplex 4 0] 3) C0
  = nth (3 - 1) [mkComplex 1 0; mkComplex 2 0; mkComplex 4 0] C0.
Proof.
  apply (fft_odd_length_last_cell [mkComplex 1 0; mkComplex 2 0; mkComplex 4 0] 3).
  - reflexivity.
  - simpl. lia.
Defined.

Lemma Cmul_Cadd_distr_l a b c : Cmul a (Cadd b c) = Cadd (Cmul a b) (Cmul a c).
Proof. apply Complex_eq; simpl; lra. Qed.

Lemma Csum_Cadd f g n :
  Csum (fun i => Cadd (f i) (g i)) n = Cadd (Csum f n) (Csum g n).
Proof.
  induction n as [|n IH]; simpl.
  - apply Complex_eq; simpl; lra.
  - rewrite IH. apply Complex_eq; simpl; lra.
Qed.

Lemma Csum_Cmul_l f c n : Csum (fun i => Cmul c (f i)) n = Cmul c (Csum f n).
Proof.
  induction n as [|n IH]; simpl.
  - apply Complex_eq; simpl; lra.
  - rewrite IH, Cmul_Cadd_distr_l. reflexivity.
Qed.

Lemma Caxpy_length a x y : length x = length y -> length (Caxpy a x y) = length x.
Proof.
  intros H. unfold Caxpy. rewrite length_map, length_combine, <- H. apply Nat.min_id.
Qed.

Lemma Caxpy_nth a x y j :
  length x = length y -> (j < length x)%nat ->
  nth j (Caxpy a x y) C0 = Cadd (Cmul a (nth j x C0)) (nth j y C0).
Proof.
  intros Hl Hj. unfold Caxpy.
  rewrite (nth_indep _ C0 (Cadd (Cmul a (fst (C0, C0))) (snd (C0, C0))))
    by (rewrite length_map, length_combine, <- Hl, Nat.min_id; exact Hj).
  rewrite (map_nth (fun p => Cadd (Cmul a (fst p)) (snd p)) (combine x y) (C0, C0) j).
  rewrite combine_nth by exact Hl. reflexivity.
Qed.

Lemma dft_linear a x y n k :
  length x = length y -> (n <= length x)%nat ->
  dft (Caxpy a x y) n k = Cadd (Cmul a (dft x n k)) (dft y n k).
Proof.
  intros Hl Hn. unfold dft.
  rewrite <- Csum_Cmul_l, <- Csum_Cadd. apply Csum_ext. intros j Hj.
  rewrite Caxpy_nth by (try exact Hl; lia).
  rewrite Cmul_Cadd_distr_r, Cmul_assoc. reflexivity.
Qed.

(** X2: [fft] is linear: for arrays whose length is a power of two, the
    transform of [a * x + y] (cell by cell, [a] complex) is [a] times the
    transform of [x] plus the transform of [y]. *)
Theorem fft_linear (m : nat) (a : Complex) (x y : list Complex) (k : nat) :
  length x = (2 ^ m)%nat ->
  length y = (2 ^ m)%nat ->
  (k < 2 ^ m)%nat ->
  nth k (fft (Caxpy a x y) (2 ^ m)) C0
  = Cadd (Cmul a (nth k (fft x (2 ^ m)) C0)) (nth k (fft y (2 ^ m)) C0).
Proof.
  intros Hx Hy Hk.
  rewrite !fft_dft_array; try assumption.
  - rewrite !nth_map_seq by exact Hk. apply dft_linear; lia.
  - rewrite Caxpy_length; lia.
Qed.

Lemma fft_linear_witness :
  nth 1 (fft (Caxpy (mkComplex 0 1) [mkComplex 1 0; mkComplex 2 0]
                    [mkComplex 3 0; mkComplex 5 1]) (2 ^ 1)) C0
  = Cadd (Cmul (mkComplex 0 1) (nth 1 (fft [mkComplex 1 0; mkComplex 2 0] (2 ^ 1)) C0))
         (nth 1 (fft [mkComplex 3 0; mkComplex 5 1] (2 ^ 1)) C0).
Proof.
  apply (fft_linear 1 (mkComplex 0 1) [mkComplex 1 0; mkComplex 2 0]
           [mkComplex 3 0; mkComplex 5 1] 1).
  - reflexivity.
  - reflexivity.
  - simpl. lia.
Defined.

Lemma Csum_Cconj f n : Cconj (Csum f n) = Csum (fun i => Cconj (f i)) n.
Proof.
  induction n as [|n IH]; simpl.
  - apply Complex_eq; simpl; lra.
  - rewrite <- IH. apply Complex_eq; simpl; lra.
Qed.

Lemma magnitude_Cconj c : magnitude (Cconj c) = magnitude c.
Proof. unfold magnitude. simpl. f_equal. lra. Qed.

Lemma dft_real_mirror x n k :
  (forall j, imag (nth j x C0) = 0) ->
  (0 < n)%nat -> (k <= n)%nat ->
  dft x n (n - k) = Cconj (dft x n k).
Proof.
  intros Hreal Hn Hk. unfold dft. rewrite Csum_Cconj. apply Csum_ext. intros j Hj.
  assert (Hne : INR n <> 0) by (apply not_0_INR; lia).
  replace (-2 * PI * INR j * INR (n - k) / INR n)
    with (2 * PI * INR j * INR k / INR n - 2 * PI * INR j)
    by (rewrite minus_INR by exact Hk; field; exact Hne).
  rewrite cis_turns.
  replace (-2 * PI * INR j * INR k / INR n)
    with (- (2 * PI * INR j * INR k / INR n)) by (field; exact Hne).
  unfold cis, Cmul, Cconj. rewrite cos_neg, sin_neg.
  apply Complex_eq; simpl; rewrite Hreal; lra.
Qed.

Lemma fft_mirror_conj m x k :
  length x = (2 ^ m)%nat ->
  (forall j, imag (nth j x C0) = 0) ->
  (1 <= k < 2 ^ m)%nat ->
  nth (2 ^ m - k) (fft x (2 ^ m)) C0 = Cconj (nth k (fft x (2 ^ m)) C0).
Proof.
  intros Hlen Hreal Hk. rewrite fft_dft_array by exact Hlen.
  rewrite !nth_map_seq by lia. apply dft_real_mirror; [exact Hreal | lia | lia].
Qed.

(** X3: for a real input (all imaginary parts 0) whose length [n] is a
    power of two, bin [n - k] of the result of [fft] is the complex
    conjugate of bin [k], so the two have the same magnitude: the upper
    half of the spectrum mirrors the lower half. *)
Theorem fft_real_input_mirror (m : nat) (x : list Complex) (k : nat) :
  length x = (2 ^ m)%nat ->
  (forall j, imag (nth j x C0) = 0) ->
  (1 <= k < 2 ^ m)%nat ->
  nth (2 ^ m - k) (fft x (2 ^ m)) C0 = Cconj (nth k (fft x (2 ^ m)) C0)
  /\ magnitude (nth (2 ^ m - k) (fft x (2 ^ m)) C0)
     = magnitude (nth k (fft x (2 ^ m)) C0).
Proof.
  intros Hlen Hreal Hk.
  pose proof (fft_mirror_conj m x k Hlen Hreal Hk) as E.
  split; [exact E|]. rewrite E. apply magnitude_Cconj.
Qed.

Lemma fft_real_input_mirror_witness :
  nth (2 ^ 2 - 1) (fft [mkComplex 1 0; mkComplex 2 0; mkComplex 4 0; mkComplex 8 0] (2 ^ 2)) C0
  = Cconj (nth 1 (fft [mkComplex 1 0; mkComplex 2 0; mkComplex 4 0; mkComplex 8 0] (2 ^ 2)) C0)
  /\ magnitude (nth (2 ^ 2 - 1)
                  (fft [mkComplex 1 0; mkComplex 2 0; mkComplex 4 0; mkComplex 8 0] (2 ^ 2)) C0)
     = magnitude (nth 1
                  (fft [mkComplex 1 0; mkComplex 2 0; mkComplex 4 0; mkComplex 8 0] (2 ^ 2)) C0).
Proof.
  apply (fft_real_input_mirror 2
           [mkComplex 1 0; mkComplex 2 0; mkComplex 4 0; mkComplex 8 0] 1).
  - reflexivity.
  - intros j. do 5 (destruct j as [|j]; [reflexivity|]). destruct j; reflexivity.
  - simpl. lia.
Defined.

(** ** The window and the squelch gate *)

Lemma window_span_pos : 0 < INR (REC_BUFFER_SIZE - 1).
Proof. apply lt_0_INR. unfold REC_BUFFER_SIZE. lia. Qed.

Lemma hann_range i : 0 <= hann i <= 1.
Proof.
  unfold hann. pose proof (COS_bound (2 * M_PI * INR i / INR (REC_BUFFER_SIZE - 1))). lra.
Qed.

Lemma hann_first : hann 0 = 0.
Proof.
  unfold hann. replace (2 * M_PI * INR 0 / INR (REC_BUFFER_SIZE - 1)) with 0
    by (simpl INR at 1; unfold Rdiv; ring).
  rewrite cos_0. lra.
Qed.

Lemma hann_mirror i :
  (i <= REC_BUFFER_SIZE - 1)%nat -> hann (REC_BUFFER_SIZE - 1 - i) = hann i.
Proof.
  intros Hi. unfold hann.
  pose proof window_span_pos as Hp.
  assert (E : 2 * M_PI * INR (REC_BUFFER_SIZE - 1 - i) / INR (REC_BUFFER_SIZE - 1)
              = - (2 * M_PI * INR i / INR (REC_BUFFER_SIZE - 1)) + 2 * INR 1 * PI).
  { rewrite (minus_INR _ i) by exact Hi. rewrite INR_1. unfold M_PI.
    set (d := INR (REC_BUFFER_SIZE - 1)) in *. field. lra. }
  rewrite E, cos_period, cos_neg. reflexivity.
Qed.

Lemma hann_last : hann (REC_BUFFER_SIZE - 1) = 0.
Proof.
  rewrite <- hann_first. rewrite <- (hann_mirror 0) by lia.
  f_equal; lia.
Qed.

Lemma window_cells buf :
  length (window buf) = REC_BUFFER_SIZE
  /\ forall i, (i < REC_BUFFER_SIZE)%nat ->
       nth i (window buf) C0 = mkComplex (IZR (nth i buf 0%Z) * hann i) 0.
Proof.
  unfold window.
  destruct (for_loop_pointwise
              (fun i (_ : Complex) => mkComplex (IZR (nth i buf 0%Z) * hann i) 0.0)
              C0 0 REC_BUFFER_SIZE (repeat C0 REC_BUFFER_SIZE) (Nat.le_0_l _)) as [Hl Hn].
  split; [rewrite Hl; apply repeat_length|].
  intros i Hi. rewrite Hn. rewrite repeat_length.
  replace (i <? REC_BUFFER_SIZE)%nat with true by (symmetry; apply Nat.ltb_lt; exact Hi).
  change (0 <=? i)%nat with true. cbn [andb]. apply Complex_eq; simpl; lra.
Qed.


(** X4: the windowed frame has [REC_BUFFER_SIZE] cells; cell [i] is the
    sample times a Hann coefficient in [[0, 1]] with imaginary part 0, so
    no sample is amplified; the coefficients are symmetric about the
    middle of the frame and vanish at both ends, so the first and the
    last sample never reach the transform. *)
Theorem window_frame (buf : list Z) (i : nat) :
  (i < REC_BUFFER_SIZE)%nat ->
  length (window buf) = REC_BUFFER_SIZE
  /\ nth i (window buf) C0 = mkComplex (IZR (nth i buf 0%Z) * hann i) 0
  /\ 0 <= hann i <= 1
  /\ Rabs (real (nth i (window buf) C0)) <= Rabs (IZR (nth i buf 0%Z))
  /\ hann (REC_BUFFER_SIZE - 1 - i) = hann i
  /\ nth 0 (window buf) C0 = C0
  /\ nth (REC_BUFFER_SIZE - 1) (window buf) C0 = C0.
Proof.
  intros Hi. destruct (window_cells buf) as [Hl Hn].
  pose proof (hann_range i) as Hr.
  split; [exact Hl|]. split; [apply Hn; exact Hi|]. split; [exact Hr|].
  split.
  - rewrite Hn by exact Hi. cbn [real]. rewrite Rabs_mult.
    rewrite (Rabs_right (hann i)) by lra.
    pose proof (Rabs_pos (IZR (nth i buf 0%Z))). nra.
  - split; [apply hann_mirror; lia|]. split.
    + rewrite Hn by (unfold REC_BUFFER_SIZE; lia). rewrite hann_first.
      apply Complex_eq; simpl; lra.
    + rewrite Hn by (unfold REC_BUFFER_SIZE; lia). rewrite hann_last.
      apply Complex_eq; simpl; lra.
Qed.

Lemma window_frame_witness :
  length (window loud_block) = REC_BUFFER_SIZE
  /\ nth 7 (window loud_block) C0 = mkComplex (IZR (nth 7 loud_block 0%Z) * hann 7) 0
  /\ 0 <= hann 7 <= 1
  /\ Rabs (real (nth 7 (window loud_block) C0)) <= Rabs (IZR (nth 7 loud_block 0%Z))
  /\ hann (REC_BUFFER_SIZE - 1 - 7) = hann 7
  /\ nth 0 (window loud_block) C0 = C0
  /\ nth (REC_BUFFER_SIZE - 1) (window loud_block) C0 = C0.
Proof.
  apply (window_frame loud_block 7). unfold REC_BUFFER_SIZE. lia.
Defined.




Lemma sum_squares_bound buf a :
  (forall i, (i < REC_BUFFER_SIZE)%nat -> Rabs (IZR (nth i buf 0%Z)) <= a) ->
  0 <= sum_squares buf <= INR REC_BUFFER_SIZE * (a * a).
Proof.
  intros H. unfold sum_squares.
  apply (for_loop_ind (fun i s => 0 <= s <= INR i * (a * a))); [lia | simpl; lra |].
  intros i s Hi [S1 S2]. rewrite S_INR.
  pose proof (H i ltac:(lia)) as Hb.
  set (b := IZR (nth i buf 0%Z)) in *.
  assert (Hb2 : - a <= b <= a).
  { pose proof (Rle_abs b). pose proof (Rle_abs (- b)) as Hn. rewrite Rabs_Ropp in Hn. lra. }
  split; nra.
Qed.

Lemma rms_of_bound buf a :
  (forall i, (i < REC_BUFFER_SIZE)%nat -> Rabs (IZR (nth i buf 0%Z)) <= a) ->
  0 <= rms_of buf <= a.
Proof.
  intros H. pose proof (sum_squares_bound buf a H) as [S1 S2].
  assert (Hn : 0 < INR REC_BUFFER_SIZE) by (apply lt_0_INR; unfold REC_BUFFER_SIZE; lia).
  assert (Ha : 0 <= a).
  { pose proof (H 0%nat ltac:(unfold REC_BUFFER_SIZE; lia)) as H0.
    pose proof (Rabs_pos (IZR (nth 0 buf 0%Z))). lra. }
  unfold rms_of. split; [apply sqrt_pos|].
  rewrite <- (sqrt_square a) by exact Ha.
  apply sqrt_le_1_alt.
  apply Rmult_le_reg_r with (INR REC_BUFFER_SIZE); [exact Hn|].
  replace (sum_squares buf / INR REC_BUFFER_SIZE * INR REC_BUFFER_SIZE)
    with (sum_squares buf) by (field; lra).
  lra.
Qed.

(** X6: the RMS of the capture buffer lies between 0 and the largest
    sample magnitude; so a buffer in which no sample exceeds the squelch
    threshold in magnitude is never analysed: the pass takes the squelched
    branch and leaves the trigger offset alone. *)
Theorem quiet_below_threshold (s : AppState) (trigger_offset : Z) :
  (forall i, (i < REC_BUFFER_SIZE)%nat ->
             Rabs (IZR (nth i (rec_buffer s) 0%Z)) <= squelch_threshold s) ->
  0 <= rms_of (rec_buffer s) <= squelch_threshold s
  /\ analysis_cycle s trigger_offset
     = (set_peak_hold_magnitudes (decay_peak_hold (peak_hold_magnitudes s))
          (set_peak_marker (marker_fade (peak_marker s)) s), trigger_offset).
Proof.
  intros H. pose proof (rms_of_bound _ _ H) as B.
  split; [exact B|]. apply analysis_cycle_quiet. lra.
Qed.

Lemma silence_cells i : nth i silence 0%Z = 0%Z.
Proof.
  unfold silence. destruct (Nat.lt_ge_cases i REC_BUFFER_SIZE) as [Hi|Hi].
  - apply nth_repeat.
  - apply nth_overflow. rewrite repeat_length. exact Hi.
Qed.

Lemma quiet_below_threshold_witness :
  0 <= rms_of (rec_buffer AppState_init) <= squelch_threshold AppState_init
  /\ analysis_cycle AppState_init 5
     = (set_peak_hold_magnitudes (decay_peak_hold (peak_hold_magnitudes AppState_init))
          (set_peak_marker (marker_fade (peak_marker AppState_init)) AppState_init), 5%Z).
Proof.
  apply (quiet_below_threshold AppState_init 5).
  intros i _. change (rec_buffer AppState_init) with silence.
  rewrite silence_cells. change (squelch_threshold AppState_init) with 500.0.
  rewrite Rabs_R0. lra.
Defined.

(** ** The peak search and the peak hold in a loud pass *)

(** X7: the search returns the first bin of maximal level among bins
    [1 .. N/2 - 1]: [max_db] is the level of bin [peak_index], no bin in
    the range is above it, and every bin before [peak_index] is strictly
    below it (ties go to the lowest bin). Bin 0 is never looked at. *)
Theorem peak_search_first_maximum (fft_input : list Complex) (peak_hold : list R) :
  (1 <= peak_index (peak_search fft_input peak_hold) < REC_BUFFER_SIZE / 2)%nat
  /\ max_db (peak_search fft_input peak_hold)
     = bin_db fft_input (peak_index (peak_search fft_input peak_hold))
  /\ (forall j, (1 <= j < REC_BUFFER_SIZE / 2)%nat ->
                bin_db fft_input j <= max_db (peak_search fft_input peak_hold))
  /\ (forall j, (1 <= j < peak_index (peak_search fft_input peak_hold))%nat ->
                bin_db fft_input j < max_db (peak_search fft_input peak_hold)).
Proof.
  destruct (peak_search_argmax fft_input peak_hold) as (Hidx & Hmax & Hall & Hfirst).
  split; [exact Hidx|]. split; [exact Hmax|]. split; [exact Hall | exact Hfirst].
Qed.

Lemma peak_step_hold fft_input i st :
  hold (peak_step fft_input i st)
  = if Rlt_dec (nth i (hold st) 0) (bin_db fft_input i)
    then upd i (bin_db fft_input i) (hold st) else hold st.
Proof.
  unfold peak_step.
  destruct (Rlt_dec (max_db st) (bin_db fft_input i)); cbn [hold];
    destruct (Rlt_dec (nth i (hold st) 0) (bin_db fft_input i)); reflexivity.
Qed.

Lemma ltb_succ_other j i : j <> i -> (j <? S i)%nat = (j <? i)%nat.
Proof.
  intros H. destruct (j <? i)%nat eqn:E.
  - apply Nat.ltb_lt in E. apply Nat.ltb_lt. lia.
  - apply Nat.ltb_ge in E. apply Nat.ltb_ge. lia.
Qed.

(** After the search, every cell in [1 .. N/2 - 1] holds the larger of
    its old value and the level of its bin. *)
Lemma peak_search_hold fft_input h :
  length (hold (peak_search fft_input h)) = length h
  /\ forall j, nth j (hold (peak_search fft_input h)) 0
               = if ((1 <=? j) && (j <? REC_BUFFER_SIZE / 2) && (j <? length h))%nat
                 then Rmax (nth j h 0) (bin_db fft_input j) else nth j h 0.
Proof.
  unfold peak_search.
  apply (for_loop_ind (fun m st =>
           length (hold st) = length h
           /\ forall j, nth j (hold st) 0
                        = if ((1 <=? j) && (j <? m) && (j <? length h))%nat
                          then Rmax (nth j h 0) (bin_db fft_input j) else nth j h 0)).
  - exact half_buffer_positive.
  - split; [reflexivity|]. intros j. cbn [hold].
    destruct (1 <=? j)%nat eqn:E1; destruct (j <? 1)%nat eqn:E2; cbn [andb]; try reflexivity.
    apply Nat.leb_le in E1. apply Nat.ltb_lt in E2. lia.
  - intros i st Hi [Hl Hn]. rewrite peak_step_hold.
    assert (Hold : nth i (hold st) 0 = nth i h 0).
    { rewrite Hn. replace (i <? i)%nat with false by (symmetry; apply Nat.ltb_ge; lia).
      rewrite andb_false_r. reflexivity. }
    destruct (Rlt_dec (nth i (hold st) 0) (bin_db fft_input i)) as [Hlt|Hge].
    + split; [rewrite upd_length; exact Hl|]. intros j.
      destruct (Nat.eq_dec j i) as [->|Hne].
      * replace (1 <=? i)%nat with true by (symmetry; apply Nat.leb_le; lia).
        replace (i <? S i)%nat with true by (symmetry; apply Nat.ltb_lt; lia).
        cbn [andb]. destruct (i <? length h)%nat eqn:E.
        -- apply Nat.ltb_lt in E. rewrite nth_upd_eq by lia.
           rewrite Rmax_right by lra. reflexivity.
        -- apply Nat.ltb_ge in E. rewrite upd_out_of_range by lia. exact Hold.
      * rewrite nth_upd_neq by lia. rewrite Hn, (ltb_succ_other j i Hne). reflexivity.
    + split; [exact Hl|]. intros j.
      destruct (Nat.eq_dec j i) as [->|Hne].
      * replace (1 <=? i)%nat with true by (symmetry; apply Nat.leb_le; lia).
        replace (i <? S i)%nat with true by (symmetry; apply Nat.ltb_lt; lia).
        cbn [andb]. rewrite Hold. destruct (i <? length h)%nat; [|reflexivity].
        rewrite Rmax_left by lra. reflexivity.
      * rewrite Hn, (ltb_succ_other j i Hne). reflexivity.
Qed.

Lemma analysis_cycle_loud_hold s off :
  squelch_threshold s < rms_of (rec_buffer s) ->
  peak_hold_magnitudes (fst (analysis_cycle s off))
  = decay_peak_hold
      (hold (peak_search (fft (window (rec_buffer s)) REC_BUFFER_SIZE)
                         (peak_hold_magnitudes s))).
Proof.
  intros H. unfold analysis_cycle.
  destruct (Rlt_dec (squelch_threshold s) (rms_of (rec_buffer s))); [reflexivity | lra].
Qed.

(** X8: in a pass whose RMS exceeds the squelch threshold, every cell
    [i] in [1 .. N/2 - 1] of the peak hold becomes the larger of its old
    value and the level of bin [i] of the frame, times 0.9995; cell 0 is
    only decayed, it never takes a level. *)
Theorem loud_cycle_peak_hold (s : AppState) (trigger_offset : Z) (i : nat) :
  squelch_threshold s < rms_of (rec_buffer s) ->
  length (peak_hold_magnitudes s) = (REC_BUFFER_SIZE / 2)%nat ->
  (1 <= i < REC_BUFFER_SIZE / 2)%nat ->
  nth i (peak_hold_magnitudes (fst (analysis_cycle s trigger_offset))) 0
  = Rmax (nth i (peak_hold_magnitudes s) 0)
         (bin_db (fft (window (rec_buffer s)) REC_BUFFER_SIZE) i) * 0.9995
  /\ nth 0 (peak_hold_magnitudes (fst (analysis_cycle s trigger_offset))) 0
     = nth 0 (peak_hold_magnitudes s) 0 * 0.9995.
Proof.
  intros Hloud Hlen Hi. rewrite analysis_cycle_loud_hold by exact Hloud.
  destruct (peak_search_hold (fft (window (rec_buffer s)) REC_BUFFER_SIZE)
              (peak_hold_magnitudes s)) as [_ Hn].
  rewrite !decay_peak_hold_nth by lia. rewrite !Hn, Hlen.
  replace (1 <=? i)%nat with true by (symmetry; apply Nat.leb_le; lia).
  replace (i <? REC_BUFFER_SIZE / 2)%nat with true by (symmetry; apply Nat.ltb_lt; lia).
  split; reflexivity.
Qed.

Lemma loud_cycle_peak_hold_witness :
  nth 3 (peak_hold_magnitudes
           (fst (analysis_cycle (set_rec_buffer loud_block AppState_init) 0))) 0
  = Rmax (nth 3 (peak_hold_magnitudes (set_rec_buffer loud_block AppState_init)) 0)
         (bin_db (fft (window (rec_buffer (set_rec_buffer loud_block AppState_init)))
                      REC_BUFFER_SIZE) 3) * 0.9995
  /\ nth 0 (peak_hold_magnitudes
              (fst (analysis_cycle (set_rec_buffer loud_block AppState_init) 0))) 0
     = nth 0 (peak_hold_magnitudes (set_rec_buffer loud_block AppState_init)) 0 * 0.9995.
Proof.
  apply (loud_cycle_peak_hold (set_rec_buffer loud_block AppState_init) 0 3).
  - exact loud_block_is_loud.
  - cbn [peak_hold_magnitudes set_rec_buffer AppState_init]. apply repeat_length.
  - split; [lia|]. apply Nat.div_le_lower_bound; unfold REC_BUFFER_SIZE; lia.
Defined.

(** ** What every frame of main can rely on *)

Lemma scan_crossing_range buf n : forall lo off,
  (0 <= off <= Z.of_nat (lo + n) - 1)%Z ->
  (0 <= scan_crossing buf (seq lo n) off <= Z.of_nat (lo + n) - 1)%Z.
Proof.
  induction n as [|n IH]; intros lo off H; simpl; [exact H|].
  destruct (crossing buf lo); [lia|].
  replace (lo + S n)%nat with (S lo + n)%nat in * by lia. apply IH. exact H.
Qed.

Lemma trigger_scan_range buf off :
  (0 <= off <= Z.of_nat REC_BUFFER_SIZE - 2)%Z ->
  (0 <= trigger_scan buf off <= Z.of_nat REC_BUFFER_SIZE - 2)%Z.
Proof.
  intros H. unfold trigger_scan.
  assert (E : (Z.of_nat (1 + (REC_BUFFER_SIZE - 1 - 1)) - 1 = Z.of_nat REC_BUFFER_SIZE - 2)%Z)
    by (unfold REC_BUFFER_SIZE; lia).
  rewrite <- E. apply scan_crossing_range. rewrite E. exact H.
Qed.

Lemma clamp_samples_range t :
  (100 <= clamp_samples t <= Z.of_nat REC_BUFFER_SIZE)%Z.
Proof.
  unfold clamp_samples.
  assert (HN : (100 <= Z.of_nat REC_BUFFER_SIZE)%Z) by (unfold REC_BUFFER_SIZE; lia).
  destruct (t <? 100)%Z eqn:E1.
  - destruct (100 >? Z.of_nat REC_BUFFER_SIZE)%Z eqn:E2; [|lia].
    rewrite Z.gtb_ltb in E2. apply Z.ltb_lt in E2. lia.
  - apply Z.ltb_ge in E1.
    destruct (t >? Z.of_nat REC_BUFFER_SIZE)%Z eqn:E2; [lia|].
    rewrite Z.gtb_ltb in E2. apply Z.ltb_ge in E2. lia.
Qed.

Lemma trunc_between lo hi d : IZR lo <= d <= IZR hi -> 0 <= IZR lo -> (lo <= trunc d <= hi)%Z.
Proof.
  intros [H1 H2] H0. pose proof (trunc_nonneg d ltac:(lra)) as [T1 T2].
  split.
  - apply Z.lt_succ_r, lt_IZR. rewrite succ_IZR. lra.
  - apply le_IZR. lra.
Qed.

Lemma timebase_range s target_freq :
  (100 <= scope_display_samples s <= Z.of_nat REC_BUFFER_SIZE)%Z ->
  (100 <= timebase s target_freq <= Z.of_nat REC_BUFFER_SIZE)%Z.
Proof.
  intros [H1 H2]. unfold timebase. destruct (auto_timebase_on s).
  - pose proof (clamp_samples_range
                  (trunc (if Rlt_dec 0 target_freq
                          then 4.0 * (IZR SAMPLE_RATE / target_freq) else 2048))) as [C1 C2].
    fold (target_samples_of target_freq) in C1, C2.
    apply IZR_le in H1, H2, C1, C2.
    apply trunc_between; [|lra]. lra.
  - unfold REC_BUFFER_SIZE. lia.
Qed.

Lemma decay_keeps_floor v : -1000 <= v -> -1000 <= v * 0.9995.
Proof. intros H. lra. Qed.

Lemma recording_callback_length stream s :
  length (rec_buffer s) = REC_BUFFER_SIZE ->
  length (rec_buffer (recording_callback stream s)) = REC_BUFFER_SIZE.
Proof.
  intros H. unfold recording_callback. destruct (is_paused s); [exact H|].
  cbn [rec_buffer set_rec_buffer].
  rewrite length_app, length_skipn, length_firstn, H. lia.
Qed.

Lemma handle_key_display k s :
  rec_buffer (handle_key k s) = rec_buffer s
  /\ peak_marker (handle_key k s) = peak_marker s
  /\ scope_display_samples (handle_key k s) = scope_display_samples s
  /\ (k <> SDLK_r -> peak_hold_magnitudes (handle_key k s) = peak_hold_magnitudes s).
Proof.
  destruct k; cbn [handle_key]; repeat split; try reflexivity; intros H; try reflexivity;
    contradiction.
Qed.

Lemma key_is_reset_dec k : {k = SDLK_r} + {k <> SDLK_r}.
Proof. destruct k; (left; reflexivity) || (right; discriminate). Qed.

Lemma frame_state_step e st : frame_state_ok st -> frame_state_ok (main_step e st).
Proof.
  intros (Hbuf & Hlen & Hfloor & Hoff & Hsamp & Hfreq).
  destruct e as [k | | stream |]; cbn [main_step].
  - destruct (handle_key_display k (fst st)) as (E1 & E2 & E3 & E4).
    unfold frame_state_ok. cbn [fst snd]. rewrite E1, E2, E3.
    destruct (key_is_reset_dec k) as [->|Hk].
    + cbn [handle_key]. rewrite reset_peak_hold_length.
      repeat split; try assumption; try lia.
      intros i Hi. rewrite reset_peak_hold_nth by (try rewrite Hlen; exact Hi). lra.
    + rewrite (E4 Hk). repeat split; try assumption; lia.
  - unfold frame_state_ok. cbn [fst snd toggle_generator set_generator rec_buffer
      peak_hold_magnitudes scope_display_samples peak_marker].
    repeat split; try assumption; lia.
  - destruct (recording_callback_frame stream (fst st)) as (_ & _ & _ & E1 & E2 & E3).
    unfold frame_state_ok. cbn [fst snd]. rewrite E1, E2, E3.
    repeat split; try assumption; try lia. apply recording_callback_length. exact Hbuf.
  - unfold main_analysis. destruct (is_paused (fst st));
      [unfold frame_state_ok; cbn [fst snd]; repeat split; try assumption; lia|].
    destruct (analysis_cycle_frame (fst st) (snd st)) as (_ & _ & _ & _ & Eb & _).
    unfold frame_state_ok. rewrite Eb.
    destruct (Rlt_dec (squelch_threshold (fst st)) (rms_of (rec_buffer (fst st))))
      as [Hloud|Hquiet].
    + set (X := fft (window (rec_buffer (fst st))) REC_BUFFER_SIZE).
      destruct (peak_search_hold X (peak_hold_magnitudes (fst st))) as [Hl Hn].
      destruct (peak_search_argmax X (peak_hold_magnitudes (fst st))) as (Hidx & _).
      rewrite analysis_cycle_loud_hold, analysis_cycle_loud_offset by exact Hloud.
      fold X. rewrite decay_peak_hold_length, Hl.
      split; [exact Hbuf|]. split; [exact Hlen|]. split.
      * intros i Hi. rewrite decay_peak_hold_nth by exact Hi. apply decay_keeps_floor.
        rewrite Hn. pose proof (Hfloor i Hi) as Hv.
        destruct ((1 <=? i) && (i <? REC_BUFFER_SIZE / 2)
                  && (i <? length (peak_hold_magnitudes (fst st))))%nat; [|exact Hv].
        pose proof (Rmax_l (nth i (peak_hold_magnitudes (fst st)) 0) (bin_db X i)). lra.
      * split.
        -- destruct (trigger_lock_on (fst st)); [apply trigger_scan_range; exact Hoff|].
           unfold REC_BUFFER_SIZE. lia.
        -- unfold analysis_cycle.
           destruct (Rlt_dec (squelch_threshold (fst st)) (rms_of (rec_buffer (fst st))));
             [|contradiction].
           cbn [fst scope_display_samples set_peak_hold_magnitudes set_peak_marker
                set_scope_display_samples peak_marker frequency].
           split; [apply timebase_range; exact Hsamp|].
           right. exists (peak_index (peak_search X (peak_hold_magnitudes (fst st)))).
           split; [exact Hidx | reflexivity].
    + assert (Hq : rms_of (rec_buffer (fst st)) <= squelch_threshold (fst st)) by lra.
      rewrite analysis_cycle_quiet by exact Hq.
      cbn [fst snd set_peak_hold_magnitudes set_peak_marker peak_hold_magnitudes
           scope_display_samples peak_marker].
      rewrite decay_peak_hold_length.
      split; [exact Hbuf|]. split; [exact Hlen|]. split.
      * intros i Hi. rewrite decay_peak_hold_nth by exact Hi.
        apply decay_keeps_floor, Hfloor. exact Hi.
      * split; [exact Hoff|]. split; [exact Hsamp|].
        unfold marker_fade. destruct (Rlt_dec (db (peak_marker (fst st)) * 0.99) 20.0);
          cbn [frequency]; [left; lra | exact Hfreq].
Qed.

Lemma frame_state_start : frame_state_ok (fresh_state, 0%Z).
Proof.
  unfold frame_state_ok. cbn [fst snd].
  split; [apply repeat_length|]. split.
  - unfold fresh_state. rewrite reset_peak_hold_length. apply repeat_length.
  - split.
    + intros i Hi. unfold fresh_state. rewrite reset_peak_hold_nth; [lra | exact Hi |].
      cbn [peak_hold_magnitudes AppState_init]. rewrite repeat_length. exact Hi.
    + split; [unfold REC_BUFFER_SIZE; lia|].
      split; [cbn; unfold REC_BUFFER_SIZE; lia|]. left. reflexivity.
Qed.

Lemma frame_state_run events : forall st,
  frame_state_ok st -> frame_state_ok (main_run events st).
Proof.
  induction events as [|e events IH]; intros st H; [exact H|].
  apply IH, frame_state_step, H.
Qed.

(** X9: from the state [main] enters its loop with, whatever key
    presses, clicks, captured blocks and analysis steps follow, the peak
    hold keeps its [N / 2] cells and no cell is ever below the -1000 that
    [reset_peak_hold] writes. *)
Theorem peak_hold_floor_invariant (events : list Event) (i : nat) :
  (i < REC_BUFFER_SIZE / 2)%nat ->
  length (peak_hold_magnitudes (fst (main_run events (fresh_state, 0%Z))))
  = (REC_BUFFER_SIZE / 2)%nat
  /\ -1000 <= nth i (peak_hold_magnitudes (fst (main_run events (fresh_state, 0%Z)))) 0.
Proof.
  intros Hi.
  destruct (frame_state_run events _ frame_state_start) as (_ & Hlen & Hfloor & _).
  split; [exact Hlen | apply Hfloor; exact Hi].
Qed.

Lemma peak_hold_floor_invariant_witness :
  length (peak_hold_magnitudes
            (fst (main_run [Ev_capture loud_block; Ev_analysis; Ev_key SDLK_r;
                            Ev_capture silence; Ev_analysis] (fresh_state, 0%Z))))
  = (REC_BUFFER_SIZE / 2)%nat
  /\ -1000 <= nth 3 (peak_hold_magnitudes
                       (fst (main_run [Ev_capture loud_block; Ev_analysis; Ev_key SDLK_r;
                                       Ev_capture silence; Ev_analysis]
                                      (fresh_state, 0%Z)))) 0.
Proof.
  apply (peak_hold_floor_invariant
           [Ev_capture loud_block; Ev_analysis; Ev_key SDLK_r;
            Ev_capture silence; Ev_analysis] 3).
  apply Nat.div_le_lower_bound; unfold REC_BUFFER_SIZE; lia.
Defined.



Lemma freq_to_note_bin p :
  (1 <= p < REC_BUFFER_SIZE / 2)%nat ->
  freq_to_note (target_freq_of p) 16
  = Some (snprintf 16
            (nth (Z.to_nat (round (12 * log2 (target_freq_of p / 440.0) + 69) mod 12))
                 note_names ""%string
             ++ print_int (round (12 * log2 (target_freq_of p / 440.0) + 69) / 12 - 1))).
Proof.
  intros Hp. destruct (analysis_frequencies_named p Hp) as [Hpos Hnote].
  apply freq_to_note_named; [exact Hpos | unfold INT_MAX; lia].
Qed.

(** X11: in every state of a run of [main] the marker frequency is 0 or
    the centre of a bin in [1 .. N/2 - 1]; so whenever [main] calls
    [freq_to_note] (it does when the frequency is positive) the note
    number is at least 0 and the call yields a note name: the read
    outside [note_names] cannot happen from [main]. *)
Theorem marker_frequency_has_note (events : list Event) :
  0 <= frequency (peak_marker (fst (main_run events (fresh_state, 0%Z))))
  /\ (0 < frequency (peak_marker (fst (main_run events (fresh_state, 0%Z)))) ->
      (0 <= round (12 * log2 (frequency (peak_marker
                                           (fst (main_run events (fresh_state, 0%Z))))
                              / 440.0) + 69) <= 141)%Z
      /\ exists name,
           freq_to_note (frequency (peak_marker (fst (main_run events (fresh_state, 0%Z)))))
                        16 = Some name).
Proof.
  destruct (frame_state_run events _ frame_state_start) as (_ & _ & _ & _ & _ & Hfreq).
  destruct Hfreq as [E | (p & Hp & E)]; rewrite E.
  - split; [lra|]. intros H. lra.
  - destruct (analysis_frequencies_named p Hp) as [Hpos Hnote].
    split; [lra|]. intros _. split; [exact Hnote|].
    eexists. apply freq_to_note_bin. exact Hp.
Qed.

Lemma after_loud_pass_run :
  main_run [Ev_capture loud_block; Ev_analysis] (fresh_state, 0%Z) = after_loud_pass.
Proof.
  destruct loud_pass_input as (Hp & _).
  cbn [main_run fold_left main_step fst snd]. unfold main_analysis. rewrite Hp. reflexivity.
Qed.

Lemma marker_frequency_has_note_witness :
  exists name,
    freq_to_note
      (frequency (peak_marker
                    (fst (main_run [Ev_capture loud_block; Ev_analysis] (fresh_state, 0%Z)))))
      16 = Some name.
Proof.
  apply (proj2 (marker_frequency_has_note [Ev_capture loud_block; Ev_analysis])).
  rewrite after_loud_pass_run. unfold after_loud_pass.
  destruct loud_pass_input as (_ & _ & Hthr & Hbuf).
  rewrite analysis_cycle_loud_frequency by (rewrite Hthr, Hbuf, rms_of_loud_block; lra).
  apply target_freq_of_positive.
  apply (peak_search_argmax
           (fft (window (rec_buffer (recording_callback loud_block fresh_state)))
                REC_BUFFER_SIZE)
           (peak_hold_magnitudes (recording_callback loud_block fresh_state))).
Defined.

(** ** The marker over squelched passes *)

Lemma marker_fade_fields m :
  db (marker_fade m) = Rmax 20 (db m * 0.99)
  /\ frequency (marker_fade m) = (if Rlt_dec (db m * 0.99) 20.0 then 0 else frequency m)
  /\ x_pos (marker_fade m) = x_pos m.
Proof.
  unfold marker_fade, Rmax.
  destruct (Rlt_dec (db m * 0.99) 20.0); destruct (Rle_dec 20 (db m * 0.99));
    cbn [db frequency x_pos]; repeat split; lra.
Qed.

Lemma fade_factor_range k : 0 < 0.99 ^ k <= 1.
Proof.
  induction k as [|k IH]; simpl; [lra|]. destruct IH as [IH1 IH2]. split; nra.
Qed.

(** [k >= 1] fades in a row, in closed form. *)
Lemma marker_fade_iter k m :
  db (Nat.iter (S k) marker_fade m) = Rmax 20 (db m * 0.99 ^ S k)
  /\ (db m * 0.99 ^ S k < 20 -> frequency (Nat.iter (S k) marker_fade m) = 0)
  /\ (20 <= db m * 0.99 ^ S k ->
      frequency (Nat.iter (S k) marker_fade m) = frequency m)
  /\ x_pos (Nat.iter (S k) marker_fade m) = x_pos m.
Proof.
  induction k as [|k IH].
  - cbn [Nat.iter nat_rect]. destruct (marker_fade_fields m) as (E1 & E2 & E3).
    rewrite E1, E2, E3. replace (0.99 ^ 1) with 0.99 by (simpl; lra).
    repeat split; intros; destruct (Rlt_dec (db m * 0.99) 20.0); lra.
  - destruct IH as (D & F0 & F1 & Xp).
    change (Nat.iter (S (S k)) marker_fade m)
      with (marker_fade (Nat.iter (S k) marker_fade m)).
    destruct (marker_fade_fields (Nat.iter (S k) marker_fade m)) as (E1 & E2 & E3).
    rewrite E1, E2, E3, D, Xp.
    pose proof (fade_factor_range (S k)) as [C1 C2].
    replace (0.99 ^ S (S k)) with (0.99 * 0.99 ^ S k) by (simpl; lra).
    set (c := 0.99 ^ S k) in *. set (d := db m) in *.
    split; [|split; [|split; [|reflexivity]]].
    + unfold Rmax. destruct (Rle_dec 20 (d * c)); destruct (Rle_dec 20 (d * (0.99 * c)));
        match goal with |- context [Rle_dec ?a ?b] => destruct (Rle_dec a b) end;
        try reflexivity; nra.
    + intros H.
      destruct (Rlt_dec (Rmax 20 (d * c) * 0.99) 20.0) as [Hlt|Hge]; [reflexivity|].
      exfalso. apply Hge. unfold Rmax. destruct (Rle_dec 20 (d * c)); nra.
    + intros H.
      destruct (Rlt_dec (Rmax 20 (d * c) * 0.99) 20.0) as [Hlt|Hge].
      * exfalso. unfold Rmax in Hlt. destruct (Rle_dec 20 (d * c)); nra.
      * apply F1. nra.
Qed.

Lemma quiet_cycles_marker k st st' :
  quiet_cycles k st st' ->
  peak_marker (fst st') = Nat.iter k marker_fade (peak_marker (fst st))
  /\ snd st' = snd st
  /\ scope_display_samples (fst st') = scope_display_samples (fst st).
Proof.
  induction 1 as [st | k s off stream st' Hq Hrun IH].
  - repeat split.
  - destruct IH as (M & O & S). rewrite M, O, S.
    rewrite analysis_cycle_quiet by exact Hq.
    cbn [fst snd set_peak_hold_magnitudes set_peak_marker peak_marker
         scope_display_samples].
    destruct (recording_callback_frame stream s) as (_ & _ & _ & _ & -> & ->).
    rewrite Nat.iter_succ_r. repeat split.
Qed.

(** X12: after [k >= 1] consecutive passes at or below the squelch
    threshold the marker level is the larger of 20 and its start value
    times [0.99 ^ k]; the marker frequency is cleared to 0 exactly when
    that product is below 20 and is the start frequency otherwise; the
    marker position, the trigger offset and the display sample count are
    as at the start. *)
Theorem marker_after_quiet_cycles (k : nat) (s : AppState) (trigger_offset : Z)
    (st' : AppState * Z) :
  quiet_cycles (S k) (s, trigger_offset) st' ->
  db (peak_marker (fst st')) = Rmax 20 (db (peak_marker s) * 0.99 ^ S k)
  /\ (db (peak_marker s) * 0.99 ^ S k < 20 -> frequency (peak_marker (fst st')) = 0)
  /\ (20 <= db (peak_marker s) * 0.99 ^ S k ->
      frequency (peak_marker (fst st')) = frequency (peak_marker s))
  /\ x_pos (peak_marker (fst st')) = x_pos (peak_marker s)
  /\ snd st' = trigger_offset
  /\ scope_display_samples (fst st') = scope_display_samples s.
Proof.
  intros Hrun. destruct (quiet_cycles_marker _ _ _ Hrun) as (M & O & S).
  cbn [fst snd] in M, O, S. rewrite M.
  destruct (marker_fade_iter k (peak_marker s)) as (D & F0 & F1 & Xp).
  split; [exact D|]. split; [exact F0|]. split; [exact F1|]. split; [exact Xp|].
  split; [exact O | exact S].
Qed.

Lemma marker_after_quiet_cycles_witness :
  db (peak_marker (fst (analysis_cycle (recording_callback silence fresh_state) 0)))
  = Rmax 20 (db (peak_marker fresh_state) * 0.99 ^ 1)
  /\ (db (peak_marker fresh_state) * 0.99 ^ 1 < 20 ->
      frequency (peak_marker
                   (fst (analysis_cycle (recording_callback silence fresh_state) 0))) = 0)
  /\ (20 <= db (peak_marker fresh_state) * 0.99 ^ 1 ->
      frequency (peak_marker
                   (fst (analysis_cycle (recording_callback silence fresh_state) 0)))
      = frequency (peak_marker fresh_state))
  /\ x_pos (peak_marker (fst (analysis_cycle (recording_callback silence fresh_state) 0)))
     = x_pos (peak_marker fresh_state)
  /\ snd (analysis_cycle (recording_callback silence fresh_state) 0) = 0%Z
  /\ scope_display_samples (fst (analysis_cycle (recording_callback silence fresh_state) 0))
     = scope_display_samples fresh_state.
Proof.
  apply (marker_after_quiet_cycles 0 fresh_state 0
           (analysis_cycle (recording_callback silence fresh_state) 0)).
  apply (quiet_more 0 fresh_state 0 silence).
  - exact fresh_state_quiet.
  - apply quiet_done.
Defined.

(** ** recording_callback *)

(** X13: a delivered block overwrites the front of the capture buffer
    and nothing else: the first [min (length stream) N] cells are the
    block's samples, the cells after them keep their old content, a block
    longer than the buffer is cut at [N], and the buffer keeps its size. *)
Theorem recording_callback_overwrites (stream : list Z) (s : AppState) (i : nat) :
  is_paused s = false ->
  length (rec_buffer s) = REC_BUFFER_SIZE ->
  length (rec_buffer (recording_callback stream s)) = REC_BUFFER_SIZE
  /\ ((i < Nat.min (length stream) REC_BUFFER_SIZE)%nat ->
      nth i (rec_buffer (recording_callback stream s)) 0%Z = nth i stream 0%Z)
  /\ ((Nat.min (length stream) REC_BUFFER_SIZE <= i)%nat ->
      nth i (rec_buffer (recording_callback stream s)) 0%Z = nth i (rec_buffer s) 0%Z).
Proof.
  intros Hp Hlen. split; [apply recording_callback_length; exact Hlen|].
  rewrite recording_callback_buffer by exact Hp.
  assert (Hf : length (firstn REC_BUFFER_SIZE stream)
               = Nat.min (length stream) REC_BUFFER_SIZE)
    by (rewrite length_firstn; apply Nat.min_comm).
  split; intros Hi.
  - rewrite app_nth1 by (rewrite Hf; exact Hi).
    rewrite nth_firstn.
    replace (i <? REC_BUFFER_SIZE)%nat with true by (symmetry; apply Nat.ltb_lt; lia).
    reflexivity.
  - rewrite app_nth2 by (rewrite Hf; exact Hi).
    rewrite nth_skipn. f_equal. lia.
Qed.

Lemma recording_callback_overwrites_witness :
  length (rec_buffer (recording_callback [5; -6; 7]%Z fresh_state)) = REC_BUFFER_SIZE
  /\ ((1 < Nat.min (length [5; -6; 7]%Z) REC_BUFFER_SIZE)%nat ->
      nth 1 (rec_buffer (recording_callback [5; -6; 7]%Z fresh_state)) 0%Z
      = nth 1 [5; -6; 7]%Z 0%Z)
  /\ ((Nat.min (length [5; -6; 7]%Z) REC_BUFFER_SIZE <= 1)%nat ->
      nth 1 (rec_buffer (recording_callback [5; -6; 7]%Z fresh_state)) 0%Z
      = nth 1 (rec_buffer fresh_state) 0%Z).
Proof.
  apply (recording_callback_overwrites [5; -6; 7]%Z fresh_state 1).
  - reflexivity.
  - apply repeat_length.
Defined.

Lemma paused_step e st :
  is_audio_event e = true -> is_paused (fst st) = true -> main_step e st = st.
Proof.
  intros He Hp. destruct st as [s off]. cbn [fst] in Hp.
  destruct e as [k | | stream |]; try discriminate; cbn [main_step fst snd].
  - unfold recording_callback. rewrite Hp. reflexivity.
  - unfold main_analysis. rewrite Hp. reflexivity.
Qed.

(** X14: while the analyser is paused (key P), captured blocks are
    dropped and the analysis step is skipped: any number of blocks and
    loop iterations leave the whole state, capture buffer, peak hold,
    marker and trigger offset included, exactly as it was. *)
Theorem paused_analyser_is_frozen (events : list Event) (s : AppState)
    (trigger_offset : Z) :
  is_paused s = true ->
  forallb is_audio_event events = true ->
  main_run events (s, trigger_offset) = (s, trigger_offset).
Proof.
  intros Hp. induction events as [|e events IH]; intros He; [reflexivity|].
  cbn [forallb] in He. apply andb_prop in He. destruct He as [He1 He2].
  cbn [main_run fold_left]. rewrite paused_step by assumption.
  apply IH. exact He2.
Qed.

Lemma paused_analyser_is_frozen_witness :
  main_run [Ev_capture loud_block; Ev_analysis; Ev_capture silence; Ev_analysis]
           (handle_key SDLK_p fresh_state, 4%Z)
  = (handle_key SDLK_p fresh_state, 4%Z).
Proof.
  apply (paused_analyser_is_frozen
           [Ev_capture loud_block; Ev_analysis; Ev_capture silence; Ev_analysis]
           (handle_key SDLK_p fresh_state) 4).
  - reflexivity.
  - reflexivity.
Defined.

(** ** playback_callback: what the sample loop keeps *)

Lemma sample_step_controls g : generator_controls (sample_step g) = generator_controls g.
Proof.
  unfold generator_controls, sample_step, sweep_step.
  destruct (gen_is_paused g) eqn:Hp; cbn [set_phase is_on gen_is_paused wave_type].
  - rewrite Hp. reflexivity.
  - destruct (PrimFloat.leb sweep_duration_s
                (PrimFloat.add (sweep_time g) (PrimFloat.div 1 SAMPLE_RATE_double)));
      cbn [is_on gen_is_paused wave_type]; rewrite ?Hp; reflexivity.
Qed.

Lemma run_samples_controls n g : generator_controls (run_samples n g) = generator_controls g.
Proof.
  induction n as [|n IH] using N.peano_ind; [reflexivity|].
  rewrite run_samples_succ, sample_step_controls. exact IH.
Qed.

Lemma playback_callback_controls len g :
  generator_controls (playback_callback len g) = generator_controls g.
Proof.
  unfold playback_callback.
  destruct (PrimFloat.ltb _ _); [|apply run_samples_controls].
  rewrite <- (run_samples_controls (Z.to_N (len ÷ 2)) g). reflexivity.
Qed.

Lemma playback_blocks_controls lens : forall g,
  generator_controls (playback_blocks lens g) = generator_controls g.
Proof.
  unfold playback_blocks. induction lens as [|len lens IH]; intros g; [reflexivity|].
  cbn [fold_left]. rewrite IH. apply playback_callback_controls.
Qed.

Lemma sample_step_paused g :
  gen_is_paused g = true -> sweep_state (sample_step g) = sweep_state g.
Proof.
  intros Hp. unfold sweep_state, sample_step. rewrite Hp.
  cbn [set_phase gen_is_paused sweep_time sweep_up current_freq].
  rewrite Hp. reflexivity.
Qed.

Lemma run_samples_paused n g :
  gen_is_paused g = true -> sweep_state (run_samples n g) = sweep_state g.
Proof.
  intros Hp. induction n as [|n IH] using N.peano_ind; [reflexivity|].
  rewrite run_samples_succ. rewrite sample_step_paused; [exact IH|].
  pose proof (run_samples_controls n g) as C. unfold generator_controls in C.
  injection C as _ C _. rewrite C. exact Hp.
Qed.

(** X15: while the generator is paused (space bar), the blocks pulled by
    the playback device leave the sweep where it is: elapsed time,
    direction and current frequency are frozen, whatever the number and
    the sizes of the blocks; and the callback never touches the on/off
    flag, the pause flag or the waveform selection. *)
Theorem paused_generator_holds_sweep (lens : list Z) (g : ToneGenerator) :
  gen_is_paused g = true ->
  sweep_state (playback_blocks lens g) = sweep_state g
  /\ generator_controls (playback_blocks lens g) = generator_controls g.
Proof.
  intros Hp. split; [|apply playback_blocks_controls].
  rewrite playback_blocks_sweep. apply run_samples_paused. exact Hp.
Qed.

Lemma paused_generator_holds_sweep_witness :
  sweep_state (playback_blocks [4096; 4096; 100]%Z (set_gen_is_paused true generator_init))
  = sweep_state (set_gen_is_paused true generator_init)
  /\ generator_controls
       (playback_blocks [4096; 4096; 100]%Z (set_gen_is_paused true generator_init))
     = generator_controls (set_gen_is_paused true generator_init).
Proof.
  apply (paused_generator_holds_sweep [4096; 4096; 100]%Z
           (set_gen_is_paused true generator_init)).
  reflexivity.
Defined.

(** X16: the sweep does not depend on how the playback device cuts the
    stream into blocks: two sequences of block lengths that add up to the
    same number of samples leave the same elapsed time, direction and
    current frequency (only the phase, wrapped once per block, can
    differ). *)
Theorem sweep_ignores_block_cuts (lens lens' : list Z) (g : ToneGenerator) :
  samples_in lens = samples_in lens' ->
  sweep_state (playback_blocks lens g) = sweep_state (playback_blocks lens' g).
Proof.
  intros H. rewrite !playback_blocks_sweep, H. reflexivity.
Qed.

Lemma sweep_ignores_block_cuts_witness :
  sweep_state (playback_blocks [4096]%Z generator_init)
  = sweep_state (playback_blocks [1024; 3072]%Z generator_init).
Proof.
  apply (sweep_ignores_block_cuts [4096]%Z [1024; 3072]%Z generator_init).
  reflexivity.
Defined.

Lemma sweep_step_time_below g :
  PrimFloat.leb sweep_duration_s (sweep_time (sweep_step g)) = false.
Proof.
  unfold sweep_step.
  destruct (PrimFloat.leb sweep_duration_s
              (PrimFloat.add (sweep_time g) (PrimFloat.div 1 SAMPLE_RATE_double))) eqn:E;
    cbn [sweep_time]; [reflexivity | exact E].
Qed.

Lemma sample_step_time g : sweep_time (sample_step g)
  = sweep_time (if gen_is_paused g then g else sweep_step g).
Proof. reflexivity. Qed.

(** X17: while the generator is not paused, after every generated sample
    the elapsed sweep time is not at or above the 20 s duration: the
    comparison [sweep_time >= 20.0] is false in every state the loop
    leaves behind, from any start state and for any number of samples
    [>= 1]. *)
Theorem sweep_time_stays_below_duration (n : N) (g : ToneGenerator) :
  gen_is_paused g = false ->
  PrimFloat.leb sweep_duration_s (sweep_time (run_samples (N.succ n) g)) = false.
Proof.
  intros Hp. rewrite run_samples_succ, sample_step_time.
  pose proof (run_samples_controls n g) as C. unfold generator_controls in C.
  injection C as _ C _. rewrite C, Hp. apply sweep_step_time_below.
Qed.

Lemma sweep_time_stays_below_duration_witness :
  PrimFloat.leb sweep_duration_s (sweep_time (run_samples (N.succ 881999) generator_init))
  = false.
Proof.
  apply (sweep_time_stays_below_duration 881999 generator_init). reflexivity.
Defined.

(** ** The waveforms under the phase wrap *)

Lemma trunc_plus_1 d : 0 <= d -> trunc (d + 1) = (trunc d + 1)%Z.
Proof.
  intros H. pose proof (trunc_nonneg d H) as [B1 B2].
  apply trunc_unique_nonneg; [lra|]. rewrite plus_IZR. lra.
Qed.

Lemma fmod_shift x y : 0 <= x -> 0 < y -> fmod (x + y) y = fmod x y.
Proof.
  intros Hx Hy. unfold fmod.
  assert (Hq : 0 <= x / y)
    by (apply Rmult_le_pos; [exact Hx | left; apply Rinv_0_lt_compat; exact Hy]).
  replace ((x + y) / y) with (x / y + 1) by (field; lra).
  rewrite trunc_plus_1 by exact Hq. rewrite plus_IZR. lra.
Qed.

Lemma sample_value_wrap w phase :
  2.0 * M_PI <= phase -> sample_value w (phase - 2.0 * M_PI) = sample_value w phase.
Proof.
  intros H. pose proof M_PI_pos as Hpi.
  assert (Es : sin (phase - 2.0 * M_PI) = sin phase).
  { rewrite <- (sin_period (phase - 2.0 * M_PI) 1). f_equal.
    unfold M_PI. rewrite INR_1. lra. }
  destruct w; unfold sample_value.
  - exact Es.
  - rewrite Es. reflexivity.
  - rewrite <- (fmod_shift (phase - 2.0 * M_PI) (2.0 * M_PI)) by lra.
    replace (phase - 2.0 * M_PI + 2.0 * M_PI) with phase by lra. reflexivity.
  - assert (Hq : 0 <= (phase - 2.0 * M_PI) / (2.0 * M_PI))
      by (apply Rmult_le_pos; [lra | left; apply Rinv_0_lt_compat; lra]).
    rewrite <- (fmod_shift ((phase - 2.0 * M_PI) / (2.0 * M_PI)) 1.0) by lra.
    assert (Hy : 2.0 * M_PI * / (2.0 * M_PI) = 1) by (apply Rinv_r; lra).
    replace ((phase - 2.0 * M_PI) / (2.0 * M_PI) + 1.0) with (phase / (2.0 * M_PI))
      by (unfold Rdiv; lra).
    reflexivity.
Qed.

(** X18: each of the four waveforms has period [2 pi] on phases
    [>= 0]: for a phase of at least [2 pi], the value and the 16-bit
    sample at [phase - 2 pi] are those at [phase].  This is what lets
    [playback_callback] subtract [2 pi] from the phase after a block
    without changing the tone. *)
Theorem phase_wrap_keeps_sample (w : WaveformType) (phase : R) :
  2.0 * M_PI <= phase ->
  sample_value w (phase - 2.0 * M_PI) = sample_value w phase
  /\ output_sample w (phase - 2.0 * M_PI) = output_sample w phase.
Proof.
  intros H. pose proof (sample_value_wrap w phase H) as E.
  split; [exact E|]. unfold output_sample. rewrite E. reflexivity.
Qed.

Lemma phase_wrap_keeps_sample_witness :
  sample_value WAVE_SAWTOOTH (3 * M_PI - 2.0 * M_PI) = sample_value WAVE_SAWTOOTH (3 * M_PI)
  /\ output_sample WAVE_SAWTOOTH (3 * M_PI - 2.0 * M_PI)
     = output_sample WAVE_SAWTOOTH (3 * M_PI).
Proof.
  apply (phase_wrap_keeps_sample WAVE_SAWTOOTH (3 * M_PI)).
  pose proof M_PI_pos. lra.
Defined.

(** ** freq_to_note across octaves *)

Lemma round_plus_12 d : 0 <= d -> round (d + 12) = (round d + 12)%Z.
Proof.
  intros H. unfold round.
  destruct (Rle_dec 0 d); [|contradiction]. destruct (Rle_dec 0 (d + 12)); [|lra].
  pose proof (Int_part_bounds (d + / 2)) as [B1 B2].
  apply Int_part_unique. rewrite plus_IZR. lra.
Qed.

Lemma log2_double x : 0 < x -> log2 (2 * x) = log2 x + 1.
Proof.
  intros H. unfold log2. pose proof ln_2_pos. rewrite ln_mult by lra. field. lra.
Qed.

(** X19: doubling a frequency keeps the note name and raises the octave
    by one: when the note number [n] of [f] is not negative (before
    rounding), [freq_to_note f] is the table entry at [n mod 12] followed
    by [n / 12 - 1], and [freq_to_note (2 f)] is the same entry followed
    by [n / 12]. *)
Theorem freq_to_note_octave (f : R) :
  0 < f ->
  0 <= 12 * log2 (f / 440.0) + 69 ->
  (round (12 * log2 (f / 440.0) + 69) + 12 <= INT_MAX)%Z ->
  freq_to_note f 16
  = Some (snprintf 16
            (nth (Z.to_nat (round (12 * log2 (f / 440.0) + 69) mod 12)) note_names ""%string
             ++ print_int (round (12 * log2 (f / 440.0) + 69) / 12 - 1)))
  /\ freq_to_note (2 * f) 16
     = Some (snprintf 16
               (nth (Z.to_nat (round (12 * log2 (f / 440.0) + 69) mod 12)) note_names
                    ""%string
                ++ print_int (round (12 * log2 (f / 440.0) + 69) / 12))).
Proof.
  intros Hf Hn Hmax.
  destruct (round_nonneg_bounds _ Hn) as [R0 _].
  assert (E : round (12 * log2 (2 * f / 440.0) + 69)
              = (round (12 * log2 (f / 440.0) + 69) + 12)%Z).
  { replace (2 * f / 440.0) with (2 * (f / 440.0)) by lra.
    rewrite log2_double by lra.
    replace (12 * (log2 (f / 440.0) + 1) + 69) with (12 * log2 (f / 440.0) + 69 + 12) by lra.
    apply round_plus_12. exact Hn. }
  split.
  - apply freq_to_note_named; [exact Hf | lia].
  - rewrite freq_to_note_named; [| lra | rewrite E; lia].
    rewrite E. set (n := round (12 * log2 (f / 440.0) + 69)) in *.
    replace ((n + 12) mod 12)%Z with (n mod 12)%Z
      by (rewrite <- (Z_mod_plus_full n 1 12); f_equal; lia).
    replace ((n + 12) / 12 - 1)%Z with (n / 12)%Z
      by (replace (n + 12)%Z with (n + 1 * 12)%Z by lia; rewrite Z.div_add by lia; lia).
    reflexivity.
Qed.

Lemma freq_to_note_octave_witness :
  freq_to_note 440 16
  = Some (snprintf 16
            (nth (Z.to_nat (round (12 * log2 (440 / 440.0) + 69) mod 12)) note_names
                 ""%string
             ++ print_int (round (12 * log2 (440 / 440.0) + 69) / 12 - 1)))
  /\ freq_to_note (2 * 440) 16
     = Some (snprintf 16
               (nth (Z.to_nat (round (12 * log2 (440 / 440.0) + 69) mod 12)) note_names
                    ""%string
                ++ print_int (round (12 * log2 (440 / 440.0) + 69) / 12))).
Proof.
  assert (E : 12 * log2 (440 / 440.0) + 69 = IZR 69).
  { replace (440 / 440.0) with 1 by lra. rewrite log2_1. lra. }
  apply (freq_to_note_octave 440).
  - lra.
  - rewrite E. lra.
  - rewrite E, round_IZR. unfold INT_MAX. lia.
Defined.

(** ** Keys and the mouse *)

(** X20: the four flag keys are toggles: pressing P, space, T or A
    twice gives back exactly the state before the first press. *)
Theorem toggle_key_twice (k : Key) (s : AppState) :
  is_toggle_key k = true ->
  handle_key k (handle_key k s) = s.
Proof.
  intros Hk. destruct s as [r p t a buf hd mk sq vg sg sd g].
  destruct k; try discriminate Hk; cbn.
  - rewrite negb_involutive. reflexivity.
  - destruct g as [o gp w st su ph cf]. cbn. rewrite negb_involutive. reflexivity.
  - rewrite negb_involutive. reflexivity.
  - rewrite negb_involutive. reflexivity.
Qed.

Lemma toggle_key_twice_witness :
  handle_key SDLK_SPACE (handle_key SDLK_SPACE AppState_init) = AppState_init.
Proof. apply (toggle_key_twice SDLK_SPACE AppState_init). reflexivity. Defined.

Lemma in_generator_button_spec x y :
  in_generator_button x y = true <-> (864 <= x <= 1014 /\ 540 <= y <= 590)%Z.
Proof.
  unfold in_generator_button, generator_button_rect_x, generator_button_rect_y,
    generator_button_rect_w, generator_button_rect_h, SCREEN_WIDTH, SCREEN_HEIGHT.
  rewrite !andb_true_iff, !Z.leb_le. lia.
Qed.

Lemma mouse_button_down_cases x y st :
  mouse_button_down x y st
  = if in_generator_button x y
    then (toggle_generator (fst st), negb (is_on (generator (toggle_generator (fst st)))))
    else st.
Proof. reflexivity. Qed.

Lemma mouse_presses_state clicks : forall st,
  snd st = negb (is_on (generator (fst st))) ->
  is_on (generator (fst (mouse_presses clicks st)))
  = xorb (is_on (generator (fst st)))
         (Nat.odd (length (filter (fun c => in_generator_button (fst c) (snd c)) clicks)))
  /\ snd (mouse_presses clicks st)
     = negb (is_on (generator (fst (mouse_presses clicks st)))).
Proof.
  unfold mouse_presses.
  induction clicks as [|c clicks IH]; intros st H.
  - cbn. rewrite xorb_false_r. split; [reflexivity | exact H].
  - cbn [fold_left filter]. rewrite (mouse_button_down_cases (fst c) (snd c) st).
    destruct (in_generator_button (fst c) (snd c)).
    + destruct (IH (toggle_generator (fst st),
                    negb (is_on (generator (toggle_generator (fst st))))) eq_refl)
        as [E1 E2].
      split; [|exact E2]. rewrite E1.
      cbn [fst toggle_generator set_generator generator set_gen_is_on is_on length].
      rewrite Nat.odd_succ, <- Nat.negb_odd.
      destruct (is_on (generator (fst st)));
        destruct (Nat.odd (length (filter (fun c0 => in_generator_button (fst c0) (snd c0))
                                          clicks))); reflexivity.
    + apply IH. exact H.
Qed.

(** X21: a mouse press counts as a press on the generator button
    exactly when [864 <= x <= 1014] and [540 <= y <= 590] (all four edges
    included); after any sequence of presses from the start state the
    generator is on exactly when the number of presses on the button is
    odd, and the play device is paused exactly when the generator is
    off. *)
Theorem generator_button_presses (clicks : list (Z * Z)) :
  (forall x y, in_generator_button x y = true
               <-> (864 <= x <= 1014 /\ 540 <= y <= 590)%Z)
  /\ is_on (generator (fst (mouse_presses clicks (AppState_init, true))))
     = Nat.odd (length (filter (fun c => in_generator_button (fst c) (snd c)) clicks))
  /\ snd (mouse_presses clicks (AppState_init, true))
     = negb (is_on (generator (fst (mouse_presses clicks (AppState_init, true))))).
Proof.
  split; [exact in_generator_button_spec|].
  destruct (mouse_presses_state clicks (AppState_init, true) eq_refl) as [E1 E2].
  split; [|exact E2]. rewrite E1. reflexivity.
Qed.

(** ** Drawing arithmetic *)





Lemma log10_le_mono x y : 0 < x -> x <= y -> log10 x <= log10 y.
Proof.
  intros Hx Hxy. unfold log10. apply Rmult_le_compat_r.
  - left. apply Rinv_0_lt_compat, ln_10_pos.
  - apply ln_le_mono; assumption.
Qed.

Lemma log10_lt_mono x y : 0 < x -> x < y -> log10 x < log10 y.
Proof.
  intros Hx Hxy. unfold log10. apply Rmult_lt_compat_r.
  - apply Rinv_0_lt_compat, ln_10_pos.
  - apply ln_increasing; assumption.
Qed.

Lemma log_freq_range_pos : 0 < log10 max_freq - log10 20.0.
Proof.
  assert (log10 20.0 < log10 max_freq); [|lra].
  apply log10_lt_mono; unfold max_freq, SAMPLE_RATE; lra.
Qed.

Lemma target_x_of_formula f :
  target_x_of f
  = 10 + (log_peak_freq_of f - log10 20.0) / (log10 max_freq - log10 20.0) * 1004.
Proof. reflexivity. Qed.

(** X23: the logarithmic position of a frequency is inside the spectrum
    panel, between x = 10 and x = 1014, for every frequency from 20 Hz to
    [SAMPLE_RATE / 2]; it grows with the frequency; and for a frequency
    below 20 Hz it is left of the panel.  The centre of bin 1, 10.77 Hz,
    is such a frequency. *)
Theorem marker_target_position (f1 f2 : R) :
  0 < f1 <= f2 ->
  target_x_of f1 <= target_x_of f2
  /\ (20 <= f1 -> f2 <= max_freq ->
      10 <= target_x_of f1 /\ target_x_of f2 <= 1014)
  /\ (f1 < 20 -> target_x_of f1 < 10)
  /\ target_x_of (target_freq_of 1) < 10.
Proof.
  intros [H1 H12]. pose proof log_freq_range_pos as Hr.
  assert (Hlow : forall f, 0 < f -> f < 20 -> target_x_of f < 10).
  { intros f Hf Hlt. rewrite target_x_of_formula. unfold log_peak_freq_of.
    destruct (Rlt_dec 0 f); [|contradiction].
    assert (L : log10 f < log10 20.0) by (apply log10_lt_mono; lra).
    assert (Q : (log10 f - log10 20.0) / (log10 max_freq - log10 20.0) < 0).
    { unfold Rdiv. apply Rmult_lt_reg_r with (log10 max_freq - log10 20.0); [exact Hr|].
      rewrite Rmult_assoc, Rinv_l by lra. lra. }
    lra. }
  assert (E : forall f, 0 < f -> log_peak_freq_of f = log10 f).
  { intros f Hf. unfold log_peak_freq_of. destruct (Rlt_dec 0 f); [reflexivity | contradiction]. }
  assert (Hinv : 0 < / (log10 max_freq - log10 20.0)) by (apply Rinv_0_lt_compat; exact Hr).
  split; [|split; [|split]].
  - rewrite !target_x_of_formula, !E by lra. unfold Rdiv.
    pose proof (log10_le_mono f1 f2 H1 H12). nra.
  - intros H20 Hmax. rewrite !target_x_of_formula, !E by lra. unfold Rdiv.
    pose proof (log10_le_mono 20.0 f1 ltac:(lra) ltac:(lra)).
    pose proof (log10_le_mono f2 max_freq ltac:(lra) Hmax).
    assert (Q : (log10 f2 - log10 20.0) * / (log10 max_freq - log10 20.0) <= 1).
    { apply Rmult_le_reg_r with (log10 max_freq - log10 20.0); [exact Hr|].
      rewrite Rmult_assoc, Rinv_l by lra. lra. }
    split; nra.
  - intros Hlt. apply Hlow; assumption.
  - apply Hlow; [apply target_freq_of_positive; lia|].
    unfold target_freq_of, max_freq, SAMPLE_RATE.
    replace (INR REC_BUFFER_SIZE) with 4096
      by (unfold REC_BUFFER_SIZE; rewrite INR_IZR_INZ; reflexivity).
    rewrite INR_1. lra.
Qed.

Lemma marker_target_position_witness :
  target_x_of 440 <= target_x_of 880
  /\ (20 <= 440 -> 880 <= max_freq -> 10 <= target_x_of 440 /\ target_x_of 880 <= 1014)
  /\ (440 < 20 -> target_x_of 440 < 10)
  /\ target_x_of (target_freq_of 1) < 10.
Proof. apply (marker_target_position 440 880). lra. Defined.

(** X24: the lines of a graticule lie strictly inside the panel side
    they divide, whenever that side is at least as long as the number of
    parts: each [origin + i * extent / parts] is above [origin] and below
    [origin + extent]; and there are [parts - 1] of them. *)
Theorem graticule_lines_inside (origin extent parts line : Z) :
  (0 < parts <= extent)%Z ->
  In line (graticule_lines origin extent parts) ->
  (origin < line < origin + extent)%Z
  /\ length (graticule_lines origin extent parts) = (Z.to_nat parts - 1)%nat.
Proof.
  intros [Hp He] Hin. unfold graticule_lines in *.
  split; [|rewrite length_map, length_seq; reflexivity].
  apply in_map_iff in Hin. destruct Hin as (i & <- & Hi).
  apply in_seq in Hi.
  assert (Hi1 : (1 <= Z.of_nat i <= parts - 1)%Z) by lia.
  rewrite Z.quot_div_nonneg by nia.
  assert (L : (1 <= Z.of_nat i * extent / parts)%Z).
  { apply Z.div_le_lower_bound; nia. }
  assert (U : (Z.of_nat i * extent / parts < extent)%Z).
  { apply Z.div_lt_upper_bound; nia. }
  lia.
Qed.

Lemma graticule_lines_inside_witness :
  (10 < 45 < 10 + 285)%Z
  /\ length (graticule_lines 10 285 8) = (Z.to_nat 8 - 1)%nat.
Proof.
  apply (graticule_lines_inside 10 285 8 45).
  - lia.
  - vm_compute. left. reflexivity.
Defined.
